(** * tago: struct-tag instructions, their index and their dispatch

    A shallow embedding of [tago.go].  Go strings are byte sequences,
    [Instructions] is a finite map from instruction to a list of field
    names, [reflect.Type] is an inductive type of descriptors resolved
    against a table of struct declarations, and the recursive traversal
    carries an explicit recursion budget. *)

From Stdlib Require Import Ascii String.
From stdpp Require Import gmap strings list fin_maps.

Local Open Scope char_scope.

(** A Go [string]: an immutable sequence of bytes. *)
Abbreviation bytes := (list ascii).

(** Go string literal. *)
Definition str (s : string) : bytes := String.list_ascii_of_string s.

(** ** The functions of package [strings] that [tago.go] calls *)
Module Strings.

(** [asciiSpace] of package [strings]: tab, newline, vertical tab,
    form feed, carriage return, space. *)
Definition asciiSpace (c : ascii) : bool :=
  match c with
  | "009" | "010" | "011" | "012" | "013" | " " => true
  | _ => false
  end.

(** Two-byte UTF-8 encodings of white space: U+0085 and U+00A0. *)
Definition space2 (c1 c2 : ascii) : bool :=
  bool_decide (c1 = "194") && (bool_decide (c2 = "133") || bool_decide (c2 = "160")).

(** Three-byte UTF-8 encodings of white space: U+1680, U+2000..U+200A,
    U+2028, U+2029, U+202F, U+205F and U+3000. *)
Definition space3 (c1 c2 c3 : ascii) : bool :=
  (bool_decide (c1 = "225") && bool_decide (c2 = "154") && bool_decide (c3 = "128"))
  || (bool_decide (c1 = "226") && bool_decide (c2 = "128")
      && ((N.leb 128 (N_of_ascii c3) && N.leb (N_of_ascii c3) 138)
          || bool_decide (c3 = "168") || bool_decide (c3 = "169")
          || bool_decide (c3 = "175")))
  || (bool_decide (c1 = "226") && bool_decide (c2 = "129") && bool_decide (c3 = "159"))
  || (bool_decide (c1 = "227") && bool_decide (c2 = "128") && bool_decide (c3 = "128")).

(** Width in bytes of the white-space rune that starts [s]; [0] when [s]
    does not start with one ([unicode.IsSpace] after [utf8.DecodeRune]). *)
Definition spaceWidth (s : bytes) : nat :=
  match s with
  | c1 :: r1 =>
      if asciiSpace c1 then 1
      else match r1 with
           | c2 :: r2 =>
               if space2 c1 c2 then 2
               else match r2 with
                    | c3 :: _ => if space3 c1 c2 c3 then 3 else 0
                    | [] => 0
                    end
           | [] => 0
           end
  | [] => 0
  end.

(** The same for the rune that ends a string, read on the reversed
    string ([utf8.DecodeLastRune]). *)
Definition spaceWidthRev (r : bytes) : nat :=
  match r with
  | c1 :: r1 =>
      if asciiSpace c1 then 1
      else match r1 with
           | c2 :: r2 =>
               if space2 c2 c1 then 2
               else match r2 with
                    | c3 :: _ => if space3 c3 c2 c1 then 3 else 0
                    | [] => 0
                    end
           | [] => 0
           end
  | [] => 0
  end.

(** The trimming loop: skip white-space runes while there is one. *)
Fixpoint trim_go (width : bytes -> nat) (n : nat) (s : bytes) : bytes :=
  match n with
  | 0 => s
  | S n' =>
      match width s with
      | 0 => s
      | w => trim_go width n' (drop w s)
      end
  end.

Definition trimLeft (s : bytes) : bytes := trim_go spaceWidth (length s) s.

Definition trimRight (s : bytes) : bytes :=
  rev (trim_go spaceWidthRev (length s) (rev s)).

(** [strings.TrimSpace]: leading, then trailing white space removed. *)
Definition TrimSpace (s : bytes) : bytes := trimRight (trimLeft s).

(** [strings.Cut] for a one-byte separator: the text before and after
    its first occurrence. *)
Fixpoint Cut (s : bytes) (sep : ascii) : option (bytes * bytes) :=
  match s with
  | [] => None
  | c :: s' =>
      if decide (c = sep) then Some ([], s')
      else match Cut s' sep with
           | Some (a, b) => Some (c :: a, b)
           | None => None
           end
  end.

(** [strings.SplitN(s, sep, n)] for a one-byte separator and [n >= 0]:
    at most [n] substrings, the last one the unsplit remainder. *)
Fixpoint SplitN (s : bytes) (sep : ascii) (n : nat) : list bytes :=
  match n with
  | 0 => []
  | S n' =>
      match n' with
      | 0 => [s]
      | S _ =>
          match Cut s sep with
          | None => [s]
          | Some (a, b) => a :: SplitN b sep n'
          end
      end
  end.

(** [strings.SplitSeq(s, sep)] for a one-byte separator: every substring
    between separators, in order (one empty substring for an empty [s]). *)
Fixpoint SplitSeq (s : bytes) (sep : ascii) : list bytes :=
  match s with
  | [] => [[]]
  | c :: s' =>
      if decide (c = sep) then [] :: SplitSeq s' sep
      else match SplitSeq s' sep with
           | d :: ds => (c :: d) :: ds
           | [] => [[c]]
           end
  end.

(** [strings.Join]. *)
Fixpoint Join (elems : list bytes) (sep : bytes) : bytes :=
  match elems with
  | [] => []
  | e :: es =>
      match es with
      | [] => e
      | _ :: _ => e ++ sep ++ Join es sep
      end
  end.

(** A string made of white-space runes only. *)
Inductive onlySpace : bytes -> Prop :=
| onlySpace_nil : onlySpace []
| onlySpace_rune e s :
    e <> [] -> spaceWidth e = length e -> onlySpace s -> onlySpace (e ++ s).

End Strings.


(** ** The part of package [reflect] that [tago.go] uses *)
Module Reflect.

(** Kinds other than pointer, slice and struct. *)
Inductive OtherKind :=
| Bool | Int | Uint | Float | Complex | String_ | Array | Chan | Func
| Interface | Map | UnsafePointer.

(** [reflect.Kind]. *)
Inductive Kind := Ptr | Slice | Struct | KOther (k : OtherKind).

(** The identity of a struct type: the package that declares it and its
    name there.  [PkgName] is the name of the package clause, the one
    [String()] prints. *)
Record TypeId := { PkgPath : bytes; PkgName : bytes; TypeName : bytes }.

(** [reflect.Type]: a type descriptor.  A struct type is referred to by its
    identity, its fields are looked up in the declarations; a type of
    another kind carries its kind and its [String()]. *)
Inductive rtype :=
| TStruct (id : TypeId)
| TPtr (elem : rtype)
| TSlice (elem : rtype)
| TOther (k : OtherKind) (repr : bytes).

(** [reflect.StructTag], as the key/value pairs its conventional syntax
    [key:"value" key:"value"] encodes, in order. *)
Definition StructTag := list (bytes * bytes).

(** [StructTag.Get]: the value of the first pair with that key, the empty
    string when there is none. *)
Fixpoint Get (tag : StructTag) (key : bytes) : bytes :=
  match tag with
  | [] => []
  | (k, v) :: rest => if decide (k = key) then v else Get rest key
  end.

(** [reflect.StructField]. *)
Record StructField := { Name : bytes; Type_ : rtype; Tag : StructTag }.

(** [Type.Kind()]. *)
Definition kind (t : rtype) : Kind :=
  match t with
  | TStruct _ => Struct
  | TPtr _ => Ptr
  | TSlice _ => Slice
  | TOther k _ => KOther k
  end.

(** [Type.Elem()] of a pointer or slice type. *)
Definition Elem (t : rtype) : rtype :=
  match t with
  | TPtr e | TSlice e => e
  | _ => t
  end.

(** [Type.String()]: package name, dot, type name for a declared struct
    type; it does not mention the package path, so it is not unique among
    types.  A struct type literal has no package and its text as name.
    For a pointer or slice the string of the unnamed type is given; the
    traversal only compares strings where one side is a struct type. *)
Fixpoint String (t : rtype) : bytes :=
  match t with
  | TStruct id =>
      if decide (PkgName id = []) then TypeName id
      else PkgName id ++ str "." ++ TypeName id
  | TPtr e => str "*" ++ String e
  | TSlice e => str "[]" ++ String e
  | TOther _ repr => repr
  end.

End Reflect.

#[global] Instance OtherKind_eq_dec : EqDecision Reflect.OtherKind.
Proof. solve_decision. Defined.
#[global] Instance Kind_eq_dec : EqDecision Reflect.Kind.
Proof. solve_decision. Defined.
#[global] Instance TypeId_eq_dec : EqDecision Reflect.TypeId.
Proof. solve_decision. Defined.
#[global] Instance rtype_eq_dec : EqDecision Reflect.rtype.
Proof. solve_decision. Defined.

(** ** Outcomes of a call *)

(** A call returns, panics (a [reflect] method used on a type of the wrong
    kind) or exceeds the recursion budget. *)
Inductive result (A : Type) :=
| Ok (a : A)
| Panic
| Overflow.
Arguments Ok {A} a.
Arguments Panic {A}.
Arguments Overflow {A}.

#[global] Instance result_bind : MBind result := fun A B k r =>
  match r with
  | Ok a => k a
  | Panic => Panic
  | Overflow => Overflow
  end.

(** A loop over a list whose body may fail. *)
Fixpoint foldM {A B} (f : B -> A -> result B) (b : B) (l : list A) : result B :=
  match l with
  | [] => Ok b
  | a :: l' => b' ← f b a; foldM f b' l'
  end.

(** ** [tago.go] *)
Module tago.

Record TaGo := { Name : bytes }.

(** [type Instruction string], [type FieldName string]. *)
Abbreviation Instruction := bytes.
Abbreviation FieldName := bytes.

(** [type Instructions map[Instruction][]FieldName]. *)
Abbreviation Instructions := (gmap bytes (list bytes)).

Definition Key (i : Instruction) : bytes :=
  let parts := Strings.SplitN i "=" 2 in
  Strings.TrimSpace (default [] (parts !! 0)).

Definition Value (i : Instruction) : bytes :=
  let parts := Strings.SplitN i "=" 2 in
  if decide (1 < length parts) then Strings.TrimSpace (default [] (parts !! 1))
  else str "true".

Definition AddPrefix (f : FieldName) (prefix : bytes) : FieldName := prefix ++ f.

(** Appending [v] to the list under [key]; a missing key reads as nil. *)
Definition append_at (key : Instruction) (t : Instructions) (v : FieldName) : Instructions :=
  <[key := default [] (t !! key) ++ [v]]> t.

(** A key that does not exist yet is created with an empty list. *)
Definition ensure (key : Instruction) (t : Instructions) : Instructions :=
  match t !! key with
  | Some _ => t
  | None => <[key := []]> t
  end.

(** [concat]: the outer loop ranges over the map [other], the inner one
    over the list under the key. *)
Definition concat (t other : Instructions) (prefix : bytes) : Instructions :=
  map_fold (fun key values acc =>
              foldl (fun acc v => append_at key acc (AddPrefix v prefix))
                    (ensure key acc) values)
           t other.

(** The body of the loop of [GetFromField] for one directive: the
    normalised instruction string. *)
Definition normalise (instruction : bytes) : bytes :=
  let parts := Strings.SplitN instruction "=" 2 in
  let parts := Strings.TrimSpace <$> parts in
  Strings.Join parts (str "=").

Definition GetFromField_step (name : FieldName) (tags : Instructions)
    (instruction : bytes) : Instructions :=
  let instructionString := normalise instruction in
  if decide (instructionString = []) then tags
  else append_at instructionString (ensure instructionString tags) name.

Definition GetFromField (t : TaGo) (modelField : Reflect.StructField) : Instructions :=
  let tagsAsString := Reflect.Get (Reflect.Tag modelField) (Name t) in
  if decide (tagsAsString <> []) then
    foldl (GetFromField_step (Reflect.Name modelField)) ∅
          (Strings.SplitSeq tagsAsString ";")
  else ∅.

Definition typeToElem (t : Reflect.rtype) : Reflect.rtype :=
  let t := if decide (Reflect.kind t = Reflect.Ptr) then Reflect.Elem t else t in
  if decide (Reflect.kind t = Reflect.Slice) then
    let t := Reflect.Elem t in
    if decide (Reflect.kind t = Reflect.Ptr) then Reflect.Elem t else t
  else t.

Section Declarations.

(** The struct declarations of the program: the fields of each struct
    type, in declaration order. *)
Variable decls : Reflect.TypeId -> list Reflect.StructField.

(** [NumField] and [Field(i)]: the fields of a struct type; a panic on a
    type of another kind. *)
Definition fields (t : Reflect.rtype) : result (list Reflect.StructField) :=
  match t with
  | Reflect.TStruct id => Ok (decls id)
  | _ => Panic
  end.

(** [Get]; [model] is the dynamic type of the (non-nil) value passed. *)
Definition Get (t : TaGo) (model : Reflect.rtype) : result Instructions :=
  let modelType := typeToElem model in
  fs ← fields modelType;
  Ok (foldl (fun tags modelField => concat tags (GetFromField t modelField) [])
            ∅ fs).

(** The body of the loop of [getNested] for one field; [recurse] is the
    recursive call. *)
Definition getNested_step
    (recurse : Reflect.rtype -> bytes -> result Instructions)
    (t : TaGo) (modelType : Reflect.rtype) (prefix separator : bytes)
    (tags : Instructions) (modelField : Reflect.StructField) : result Instructions :=
  let tags := concat tags (GetFromField t modelField) prefix in
  let fieldType := typeToElem (Reflect.Type_ modelField) in
  if decide (Reflect.String fieldType <> Reflect.String modelType) then
    if decide (Reflect.kind fieldType = Reflect.Struct) then
      nested ← recurse fieldType (prefix ++ Reflect.Name modelField ++ separator);
      Ok (concat tags nested [])
    else Ok tags
  else Ok tags.

(** [getNested]; [depth] bounds the depth of the recursion. *)
Fixpoint getNested (depth : nat) (t : TaGo) (model : Reflect.rtype)
    (prefix separator : bytes) : result Instructions :=
  match depth with
  | 0 => Overflow
  | S depth' =>
      let modelType := typeToElem model in
      fs ← fields modelType;
      foldM (getNested_step (fun m p => getNested depth' t m p separator)
                            t modelType prefix separator)
            ∅ fs
  end.

Definition GetNested (depth : nat) (t : TaGo) (model : Reflect.rtype)
    (separator : bytes) : result Instructions :=
  getNested depth t model [] separator.

Definition Has (t : TaGo) (model : Reflect.rtype) (instructionToCheck : Instruction)
    : result bool :=
  instructions ← Get t model;
  Ok (bool_decide (is_Some (instructions !! instructionToCheck))).

End Declarations.

Section Dispatch.

(** The state the caller's actions act on. *)
Context {St : Type}.

(** [func (field FieldName)]: an action, as its effect on the state. *)
Definition Action := FieldName -> St -> St.

(** A run: the caller's state and the invocations made so far, each with
    the instruction whose action was invoked and the field passed. *)
Record Run := { state : St; calls : list (Instruction * FieldName) }.

(** [action(field)]. *)
Definition invoke (instruction : Instruction) (action : Action)
    (r : Run) (field : FieldName) : Run :=
  {| state := action field (state r);
     calls := calls r ++ [(instruction, field)] |}.


(** [Apply]; [instructionMapping] is the mapping in the order the [range]
    loop visits it. *)
Definition Apply (instructions : Instructions)
    (instructionMapping : list (Instruction * Action)) (r : Run) : Run :=
  foldl (fun r entry =>
           match instructions !! entry.1 with
           | Some fields => foldl (invoke entry.1 entry.2) r fields
           | None => r
           end)
        r instructionMapping.

End Dispatch.

End tago.

(** ** Vocabulary of the statements *)

(** The raw tag text [GetFromField] reads. *)
Definition raw_tag (t : tago.TaGo) (f : Reflect.StructField) : bytes :=
  Reflect.Get (Reflect.Tag f) (tago.Name t).

(** How many directives of a list normalise to [k]. *)
Definition occurrences (k : bytes) (ds : list bytes) : nat :=
  length (filter (fun d => tago.normalise d = k /\ k <> []) ds).

(** [fn] is listed under instruction [i] in the index [m]. *)
Definition listed (m : tago.Instructions) (i fn : bytes) : Prop :=
  exists l, m !! i = Some l /\ fn ∈ l.

(** No key of the index has an empty list. *)
Definition nonempty_lists (m : tago.Instructions) : Prop :=
  forall (k : bytes) (l : list bytes), m !! k = Some l -> l <> [].

(** [F1 + sep + F2 + sep + ... + Fn + sep + name]. *)
Definition path_name (sep : bytes) (path : list bytes) (name : bytes) : bytes :=
  foldr (fun F rest => F ++ sep ++ rest) name path.

(** The traversal descends from a struct type into a field when the
    unwrapped type of the field is a struct type whose [String()] differs
    from that of the type being traversed. *)
Definition descends (T : Reflect.TypeId) (f : Reflect.StructField)
    (T' : Reflect.TypeId) : Prop :=
  tago.typeToElem (Reflect.Type_ f) = Reflect.TStruct T' /\
  Reflect.String (Reflect.TStruct T') <> Reflect.String (Reflect.TStruct T).

(** [declared decls t T i path name]: starting from struct type [T] and
    descending through the fields [path], one reaches a struct type with a
    field [name] whose tag declares instruction [i]. *)
Inductive declared (decls : Reflect.TypeId -> list Reflect.StructField)
    (t : tago.TaGo) : Reflect.TypeId -> bytes -> list bytes -> bytes -> Prop :=
| declared_here T f i :
    f ∈ decls T -> i ∈ dom (tago.GetFromField t f) ->
    declared decls t T i [] (Reflect.Name f)
| declared_nested T f T' i path name :
    f ∈ decls T -> descends T f T' -> declared decls t T' i path name ->
    declared decls t T i (Reflect.Name f :: path) name.

(** The declarations are acyclic along the fields the traversal descends
    into: a rank decreases at each descent. *)
Definition nesting_rank (decls : Reflect.TypeId -> list Reflect.StructField)
    (rank : Reflect.TypeId -> nat) : Prop :=
  forall T f T', f ∈ decls T -> descends T f T' -> rank T' < rank T.

(** Every struct-typed field of [T] has, unwrapped, the type [T] itself. *)
Definition only_self_reference (decls : Reflect.TypeId -> list Reflect.StructField)
    (T : Reflect.TypeId) : Prop :=
  forall f, f ∈ decls T ->
    Reflect.kind (tago.typeToElem (Reflect.Type_ f)) = Reflect.Struct ->
    tago.typeToElem (Reflect.Type_ f) = Reflect.TStruct T.

(** A run that starts in state [st] with no invocation made. *)
Definition fresh {St : Type} (st : St) : @tago.Run St :=
  {| tago.state := st; tago.calls := [] |}.


(** ** Sample declarations *)
Module Sample.

Definition field (name : string) (ty : Reflect.rtype) (tag : Reflect.StructTag)
    : Reflect.StructField :=
  {| Reflect.Name := str name; Reflect.Type_ := ty; Reflect.Tag := tag |}.

Definition gorm2 (text : string) : Reflect.StructTag := [(str "gorm2", str text)].

Definition t_string : Reflect.rtype := Reflect.TOther Reflect.String_ (str "string").
Definition t_int : Reflect.rtype := Reflect.TOther Reflect.Int (str "int").

Definition in_main (name : string) : Reflect.TypeId :=
  {| Reflect.PkgPath := str "main"; Reflect.PkgName := str "main";
     Reflect.TypeName := str name |}.

(** [MyModel] and [NestedModel] of the comments of [Get] and [GetNested]. *)
Definition MyModel : Reflect.TypeId := in_main "MyModel".
Definition NestedModel : Reflect.TypeId := in_main "NestedModel".

Definition decls (id : Reflect.TypeId) : list Reflect.StructField :=
  if decide (id = MyModel) then
    [ field "Field1" t_string (gorm2 "preload=true;otherOption=value");
      field "Field2" t_int [];
      field "Field3" (Reflect.TStruct NestedModel) (gorm2 "preload=true") ]
  else if decide (id = NestedModel) then
    [ field "Subfield1" t_string (gorm2 "preload=true;otherOption=value2") ]
  else [].

Definition rank (id : Reflect.TypeId) : nat :=
  if decide (id = MyModel) then 1 else 0.

Definition tg : tago.TaGo := {| tago.Name := str "gorm2" |}.

(** Two packages whose package clause is [model], each declaring a struct
    [User]; the first refers to the second. *)
Definition AppUser : Reflect.TypeId :=
  {| Reflect.PkgPath := str "shop/app/model"; Reflect.PkgName := str "model";
     Reflect.TypeName := str "User" |}.
Definition BillingUser : Reflect.TypeId :=
  {| Reflect.PkgPath := str "shop/billing/model"; Reflect.PkgName := str "model";
     Reflect.TypeName := str "User" |}.

Definition decls_users (id : Reflect.TypeId) : list Reflect.StructField :=
  if decide (id = AppUser) then
    [ field "Email" t_string (gorm2 "index");
      field "Billing" (Reflect.TPtr (Reflect.TStruct BillingUser)) (gorm2 "preload") ]
  else if decide (id = BillingUser) then
    [ field "Plan" t_string (gorm2 "mask") ]
  else [].

(** A struct that refers to itself. *)
Definition Node : Reflect.TypeId := in_main "Node".

Definition decls_node (id : Reflect.TypeId) : list Reflect.StructField :=
  if decide (id = Node) then
    [ field "Label" t_string (gorm2 "index");
      field "Next" (Reflect.TPtr (Reflect.TStruct Node)) (gorm2 "preload");
      field "Children" (Reflect.TSlice (Reflect.TPtr (Reflect.TStruct Node))) [] ]
  else [].

(** An action that counts its invocations. *)
Definition count : @tago.Action nat := fun _ n => S n.

Definition preloads : tago.Instructions :=
  {[ str "preload=true" := [str "Field1"; str "Field3"];
     str "otherOption=value" := [str "Field1"] ]}.

End Sample.

(** ** Vocabulary of the further properties *)

(** The types [typeToElem] maps to the struct type [T]. *)
Definition wrappings (T : Reflect.TypeId) : list Reflect.rtype :=
  [ Reflect.TStruct T;
    Reflect.TPtr (Reflect.TStruct T);
    Reflect.TSlice (Reflect.TStruct T);
    Reflect.TSlice (Reflect.TPtr (Reflect.TStruct T));
    Reflect.TPtr (Reflect.TSlice (Reflect.TStruct T));
    Reflect.TPtr (Reflect.TSlice (Reflect.TPtr (Reflect.TStruct T))) ].

(** The non-empty normalised directives of a raw tag, in order. *)
Definition directives (raw : bytes) : list bytes :=
  filter (fun i => i <> []) (tago.normalise <$> Strings.SplitSeq raw ";").

(** The names the fields of [T] list under [k], in declaration order. *)
Definition own_names (decls : Reflect.TypeId -> list Reflect.StructField)
    (t : tago.TaGo) (T : Reflect.TypeId) (k : bytes) : list bytes :=
  decls T ≫= (fun f => default [] (tago.GetFromField t f !! k)).

(** Every field name of an index behind a prefix. *)
Definition relabel (prefix : bytes) (idx : tago.Instructions) : tago.Instructions :=
  (fun l : list bytes => (fun v : bytes => prefix ++ v) <$> l) <$> idx.

(** The outcome of a call, its result transformed. *)
Definition result_map {A B} (f : A -> B) (r : result A) : result B :=
  match r with
  | Ok a => Ok (f a)
  | Panic => Panic
  | Overflow => Overflow
  end.

(** Two structs that refer to each other. *)
Module Cyclic.

Definition Order : Reflect.TypeId := Sample.in_main "Order".
Definition Customer : Reflect.TypeId := Sample.in_main "Customer".

Definition to_customer : Reflect.StructField :=
  Sample.field "Customer" (Reflect.TPtr (Reflect.TStruct Customer))
    (Sample.gorm2 "preload").
Definition to_orders : Reflect.StructField :=
  Sample.field "Orders" (Reflect.TSlice (Reflect.TStruct Order)) (Sample.gorm2 "preload").

Definition decls (id : Reflect.TypeId) : list Reflect.StructField :=
  if decide (id = Order) then
    [ Sample.field "ID" Sample.t_int (Sample.gorm2 "index"); to_customer ]
  else if decide (id = Customer) then
    [ Sample.field "Name" Sample.t_string []; to_orders ]
  else [].

End Cyclic.

(** * Properties *)

(** ** Package [strings] *)

Lemma spaceWidth_app x y :
  Strings.spaceWidth x <> 0 -> Strings.spaceWidth (x ++ y) = Strings.spaceWidth x.
Proof.
  destruct x as [|c1 [|c2 [|c3 x]]]; simpl; try done;
    repeat (case_match; simpl; try done).
Qed.

Lemma spaceWidthRev_app x y :
  Strings.spaceWidthRev x <> 0 ->
  Strings.spaceWidthRev (x ++ y) = Strings.spaceWidthRev x.
Proof.
  destruct x as [|c1 [|c2 [|c3 x]]]; simpl; try done;
    repeat (case_match; simpl; try done).
Qed.

Lemma spaceWidth_nil : Strings.spaceWidth [] = 0.
Proof. done. Qed.

Lemma spaceWidthRev_nil : Strings.spaceWidthRev [] = 0.
Proof. done. Qed.

Section TrimLoop.

Variable width : bytes -> nat.
Hypothesis width_nil : width [] = 0.

Lemma trim_go_suffix n s : Strings.trim_go width n s `suffix_of` s.
Proof.
  revert s. induction n as [|n IH]; intros s; simpl; [done|].
  destruct (width s) as [|w] eqn:Hw; [done|].
  etrans; [apply IH|]. apply suffix_drop.
Qed.

Lemma trim_go_stop n s : width s = 0 -> Strings.trim_go width n s = s.
Proof. intros Hw. destruct n; simpl; [done|]. by rewrite Hw. Qed.

Lemma trim_go_width n s :
  length s <= n -> width (Strings.trim_go width n s) = 0.
Proof.
  revert s. induction n as [|n IH]; intros s Hn; simpl.
  - destruct s; simpl in *; [done|lia].
  - destruct (width s) as [|w] eqn:Hw; [done|].
    apply IH. destruct s as [|c s]; [by rewrite width_nil in Hw|].
    rewrite length_drop. simpl in *. lia.
Qed.

Lemma trim_go_fuel n m s :
  length s <= n -> length s <= m ->
  Strings.trim_go width n s = Strings.trim_go width m s.
Proof.
  revert m s. induction n as [|n IH]; intros m s Hn Hm.
  - destruct s; simpl in *; [|lia]. by rewrite trim_go_stop.
  - destruct m as [|m].
    { destruct s; simpl in *; [|lia]. by rewrite width_nil. }
    simpl. destruct (width s) as [|w] eqn:Hw; [done|].
    destruct s as [|c s]; [by rewrite width_nil in Hw|].
    apply IH; rewrite length_drop; simpl in *; lia.
Qed.

End TrimLoop.

Lemma trimLeft_suffix s : Strings.trimLeft s `suffix_of` s.
Proof. apply trim_go_suffix. Qed.

Lemma trimRight_prefix s : Strings.trimRight s `prefix_of` s.
Proof.
  unfold Strings.trimRight.
  destruct (trim_go_suffix Strings.spaceWidthRev (length s) (rev s)) as [p Hp].
  exists (rev p). apply (f_equal (@rev ascii)) in Hp.
  by rewrite rev_involutive, rev_app_distr in Hp.
Qed.

Lemma trimLeft_width s : Strings.spaceWidth (Strings.trimLeft s) = 0.
Proof. by apply trim_go_width. Qed.

Lemma trimLeft_stop s : Strings.spaceWidth s = 0 -> Strings.trimLeft s = s.
Proof. apply trim_go_stop. Qed.

Lemma trimRight_stop s :
  Strings.spaceWidthRev (rev s) = 0 -> Strings.trimRight s = s.
Proof.
  intros Hw. unfold Strings.trimRight.
  by rewrite trim_go_stop, rev_involutive.
Qed.

Lemma trimRight_width s :
  Strings.spaceWidthRev (rev (Strings.trimRight s)) = 0.
Proof.
  unfold Strings.trimRight. rewrite rev_involutive.
  apply trim_go_width; [done|]. by rewrite length_rev.
Qed.

Lemma TrimSpace_elem_of c s : c ∈ Strings.TrimSpace s -> c ∈ s.
Proof.
  unfold Strings.TrimSpace. intros Hc.
  destruct (trimRight_prefix (Strings.trimLeft s)) as [q Hq].
  destruct (trimLeft_suffix s) as [p Hp].
  rewrite Hp, Hq. set_solver.
Qed.

Lemma TrimSpace_idemp s :
  Strings.TrimSpace (Strings.TrimSpace s) = Strings.TrimSpace s.
Proof.
  unfold Strings.TrimSpace at 1.
  assert (Strings.spaceWidth (Strings.TrimSpace s) = 0) as Hl.
  { unfold Strings.TrimSpace.
    destruct (trimRight_prefix (Strings.trimLeft s)) as [q Hq].
    pose proof (trimLeft_width s) as Hw. rewrite Hq in Hw.
    destruct (decide (Strings.spaceWidth (Strings.trimRight (Strings.trimLeft s)) = 0))
      as [|Hne]; [done|].
    rewrite (spaceWidth_app _ q Hne) in Hw. done. }
  rewrite (trimLeft_stop _ Hl). apply trimRight_stop.
  unfold Strings.TrimSpace. apply trimRight_width.
Qed.

Lemma TrimSpace_nil : Strings.TrimSpace [] = [].
Proof. done. Qed.

Lemma trimLeft_rune e s :
  e <> [] -> Strings.spaceWidth e = length e ->
  Strings.trimLeft (e ++ s) = Strings.trimLeft s.
Proof.
  intros He Hw. unfold Strings.trimLeft.
  assert (Strings.spaceWidth (e ++ s) = length e) as Hws.
  { rewrite spaceWidth_app; [done|]. rewrite Hw. by destruct e. }
  assert (length (e ++ s) = S (length (e ++ s) - 1)) as Hlen.
  { rewrite length_app. destruct e; simpl; [done|lia]. }
  rewrite Hlen. cbn [Strings.trim_go]. rewrite Hws.
  destruct (length e) as [|n] eqn:Hn; [by destruct e|].
  rewrite <- Hn, drop_app_length.
  apply trim_go_fuel; [done| |done]. rewrite length_app. lia.
Qed.

Lemma onlySpace_trimLeft s : Strings.onlySpace s -> Strings.trimLeft s = [].
Proof.
  induction 1 as [|e s He Hw Hs IH]; [done|].
  by rewrite trimLeft_rune.
Qed.

Lemma onlySpace_TrimSpace s : Strings.onlySpace s -> Strings.TrimSpace s = [].
Proof.
  intros Hs. unfold Strings.TrimSpace. by rewrite onlySpace_trimLeft.
Qed.

(** A byte of a white-space rune is an ASCII space or not ASCII at all. *)
Lemma onlySpace_byte s c :
  Strings.onlySpace s -> c ∈ s ->
  Strings.asciiSpace c = true \/ (128 <= N_of_ascii c)%N.
Proof.
  induction 1 as [|e s He Hw Hs IH]; [by intros ?%elem_of_nil|].
  intros [Hc|Hc]%elem_of_app; [|by apply IH].
  clear IH Hs. destruct e as [|c1 [|c2 [|c3 [|c4 e]]]]; simpl in Hw; try done.
  - apply list_elem_of_singleton in Hc as ->.
    destruct (Strings.asciiSpace c1); [by left|done].
  - destruct (Strings.asciiSpace c1); [done|].
    destruct (Strings.space2 c1 c2) eqn:H2; [|done].
    unfold Strings.space2 in H2.
    apply andb_prop in H2 as [->%bool_decide_eq_true H2].
    apply orb_prop in H2.
    set_unfold in Hc. right.
    destruct Hc as [->|[->|[]]]; [done|].
    destruct H2 as [->%bool_decide_eq_true| ->%bool_decide_eq_true]; done.
  - destruct (Strings.asciiSpace c1); [done|].
    destruct (Strings.space2 c1 c2); [done|].
    destruct (Strings.space3 c1 c2 c3) eqn:H3; [|done].
    unfold Strings.space3 in H3. right.
    repeat match goal with
           | H : _ || _ = true |- _ => apply orb_prop in H as [H|H]
           | H : _ && _ = true |- _ => apply andb_prop in H as [? ?]
           | H : bool_decide _ = true |- _ => apply bool_decide_eq_true in H; subst
           | H : N.leb _ _ = true |- _ => apply N.leb_le in H
           end;
      set_unfold in Hc; destruct Hc as [->|[->|[->|[]]]]; done.
  - repeat case_match; done.
Qed.

Lemma onlySpace_no_low s c :
  Strings.onlySpace s -> Strings.asciiSpace c = false -> (N_of_ascii c < 128)%N ->
  c ∉ s.
Proof.
  intros Hs Hc Hn Hin. destruct (onlySpace_byte s c Hs Hin) as [?|?]; [congruence|lia].
Qed.

Lemma Cut_None s c : Strings.Cut s c = None <-> c ∉ s.
Proof.
  induction s as [|x s IH]; simpl.
  - split; [intros _; apply not_elem_of_nil|done].
  - case_decide as Hx; [subst; set_solver|].
    destruct (Strings.Cut s c) as [[a b]|]; set_solver.
Qed.

Lemma Cut_Some s c a b :
  Strings.Cut s c = Some (a, b) <-> s = a ++ c :: b /\ c ∉ a.
Proof.
  revert a. induction s as [|x s IH]; intros a; simpl.
  - split; [done|]. intros [Hs _]. by destruct a.
  - case_decide as Hx.
    + subst x. split.
      * intros [= <- <-]. split; [done|apply not_elem_of_nil].
      * intros [Hs Ha]. destruct a as [|y a]; simplify_eq/=; [done|set_solver].
    + destruct (Strings.Cut s c) as [[a' b']|] eqn:Hcut.
      * split.
        -- intros [= <- <-]. destruct (proj1 (IH a') eq_refl) as [-> Ha'].
           split; [done|set_solver].
        -- intros [Hs Ha]. destruct a as [|y a]; simplify_eq/=.
           assert (Some (a', b') = Some (a, b)) as [= -> ->]; [|done].
           apply IH. split; [done|set_solver].
      * split; [done|]. intros [Hs Ha]. destruct a as [|y a]; simplify_eq/=.
        assert (@None (bytes * bytes) = Some (a, b)); [|done].
        apply IH. split; [done|set_solver].
Qed.

Lemma Cut_app a c b : c ∉ a -> Strings.Cut (a ++ c :: b) c = Some (a, b).
Proof. intros Ha. by apply Cut_Some. Qed.

Lemma SplitN_2 s c :
  Strings.SplitN s c 2 =
  match Strings.Cut s c with
  | None => [s]
  | Some (a, b) => [a; b]
  end.
Proof. simpl. by destruct (Strings.Cut s c) as [[a b]|]. Qed.

Lemma SplitSeq_no_sep s c : c ∉ s -> Strings.SplitSeq s c = [s].
Proof.
  induction s as [|x s IH]; [done|]. intros Hc. simpl.
  case_decide; [set_solver|]. rewrite IH; [done|set_solver].
Qed.

Lemma SplitSeq_elem s c d : d ∈ Strings.SplitSeq s c -> c ∉ d.
Proof.
  revert d. induction s as [|x s IH]; intros d; simpl.
  - intros ->%list_elem_of_singleton. apply not_elem_of_nil.
  - case_decide as Hx.
    + intros [->|Hd]%elem_of_cons; [apply not_elem_of_nil|by apply IH].
    + destruct (Strings.SplitSeq s c) as [|d0 ds]; simpl.
      * intros ->%list_elem_of_singleton. set_solver.
      * intros [->|Hd]%elem_of_cons.
        -- assert (c ∉ d0) by (apply IH; set_solver). set_solver.
        -- apply IH. set_solver.
Qed.

Lemma SplitSeq_nonempty s c d : d ∈ Strings.SplitSeq s c -> d <> [] -> s <> [].
Proof. intros Hd Hne ->. simpl in Hd. set_solver. Qed.

(** ** Instructions and their accessors *)

(** The normalised string of a directive, by cases on whether it holds
    an ['=']. *)
Lemma normalise_cases d :
  tago.normalise d =
  match Strings.Cut d "=" with
  | None => Strings.TrimSpace d
  | Some (k, v) => Strings.TrimSpace k ++ "=" :: Strings.TrimSpace v
  end.
Proof.
  unfold tago.normalise. rewrite SplitN_2.
  by destruct (Strings.Cut d "=") as [[k v]|].
Qed.

Lemma normalise_no_eq d :
  "=" ∉ d -> tago.normalise d = Strings.TrimSpace d.
Proof. intros Hd. rewrite normalise_cases. by apply Cut_None in Hd as ->. Qed.

Lemma normalise_eq k v :
  "=" ∉ k ->
  tago.normalise (k ++ "=" :: v) = Strings.TrimSpace k ++ "=" :: Strings.TrimSpace v.
Proof. intros Hk. rewrite normalise_cases. by rewrite Cut_app. Qed.

Lemma TrimSpace_not_elem_of c s : c ∉ s -> c ∉ Strings.TrimSpace s.
Proof. intros Hc Hin. by apply Hc, TrimSpace_elem_of. Qed.

Lemma normalise_idemp d : tago.normalise (tago.normalise d) = tago.normalise d.
Proof.
  rewrite (normalise_cases d).
  destruct (Strings.Cut d "=") as [[k v]|] eqn:Hcut.
  - apply Cut_Some in Hcut as [-> Hk].
    rewrite normalise_eq by by apply TrimSpace_not_elem_of.
    by rewrite !TrimSpace_idemp.
  - apply Cut_None in Hcut.
    rewrite normalise_no_eq by by apply TrimSpace_not_elem_of.
    apply TrimSpace_idemp.
Qed.

Lemma normalise_no_sep d c : c <> "=" -> c ∉ d -> c ∉ tago.normalise d.
Proof.
  intros Hc Hd. rewrite normalise_cases.
  destruct (Strings.Cut d "=") as [[k v]|] eqn:Hcut.
  - apply Cut_Some in Hcut as [-> Hk].
    intros [Hin|[?|Hin]%elem_of_cons]%elem_of_app; [|done|];
      apply TrimSpace_elem_of in Hin; set_solver.
  - by apply TrimSpace_not_elem_of.
Qed.

Lemma Key_no_eq i : "=" ∉ tago.Key i.
Proof.
  unfold tago.Key. rewrite SplitN_2. apply TrimSpace_not_elem_of.
  destruct (Strings.Cut i "=") as [[k v]|] eqn:Hcut; simpl.
  - by apply Cut_Some in Hcut as [_ Hk].
  - by apply Cut_None.
Qed.

Lemma Key_cases i :
  tago.Key i =
  match Strings.Cut i "=" with
  | None => Strings.TrimSpace i
  | Some (k, _) => Strings.TrimSpace k
  end.
Proof.
  unfold tago.Key. rewrite SplitN_2.
  by destruct (Strings.Cut i "=") as [[k v]|].
Qed.

Lemma Value_cases i :
  tago.Value i =
  match Strings.Cut i "=" with
  | None => str "true"
  | Some (_, v) => Strings.TrimSpace v
  end.
Proof.
  unfold tago.Value. rewrite SplitN_2.
  by destruct (Strings.Cut i "=") as [[k v]|].
Qed.

Lemma Value_normalise_no_eq d :
  "=" ∉ d -> tago.Value (tago.normalise d) = str "true".
Proof.
  intros Hd. rewrite normalise_no_eq, Value_cases by done.
  apply TrimSpace_not_elem_of in Hd. by apply Cut_None in Hd as ->.
Qed.

Lemma Value_normalise_eq k v :
  "=" ∉ k -> tago.Value (tago.normalise (k ++ "=" :: v)) = Strings.TrimSpace v.
Proof.
  intros Hk. rewrite normalise_eq, Value_cases by done.
  rewrite Cut_app by by apply TrimSpace_not_elem_of.
  apply TrimSpace_idemp.
Qed.

Lemma Key_normalise_eq k v :
  "=" ∉ k -> tago.Key (tago.normalise (k ++ "=" :: v)) = Strings.TrimSpace k.
Proof.
  intros Hk. rewrite normalise_eq, Key_cases by done.
  rewrite Cut_app by by apply TrimSpace_not_elem_of.
  apply TrimSpace_idemp.
Qed.

(** ** The index: appending under a key, merging *)

Lemma lookup_ensure (key : bytes) (t : tago.Instructions) (k : bytes) :
  tago.ensure key t !! k =
  if decide (key = k) then Some (default [] (t !! k)) else t !! k.
Proof.
  unfold tago.ensure. case_decide as Hk.
  - subst. destruct (t !! k) eqn:Ht; [by rewrite Ht|by rewrite lookup_insert_eq].
  - destruct (t !! key); [done|by rewrite lookup_insert_ne].
Qed.

Lemma lookup_append_at (key : bytes) (t : tago.Instructions) (v k : bytes) :
  tago.append_at key t v !! k =
  if decide (key = k) then Some (default [] (t !! k) ++ [v]) else t !! k.
Proof.
  unfold tago.append_at. case_decide as Hk.
  - subst. by rewrite lookup_insert_eq.
  - by rewrite lookup_insert_ne.
Qed.

(** The inner loop of [concat]: every value is appended under [key]. *)
Lemma lookup_foldl_append_at (key prefix : bytes) (vs : list bytes)
    (t : tago.Instructions) (k : bytes) :
  foldl (fun acc v => tago.append_at key acc (tago.AddPrefix v prefix))
        (tago.ensure key t) vs !! k =
  if decide (key = k)
  then Some (default [] (t !! k) ++ ((fun v => tago.AddPrefix v prefix) <$> vs))
  else t !! k.
Proof.
  induction vs as [|v vs IH] using rev_ind; simpl.
  - rewrite lookup_ensure. case_decide; [|done]. by rewrite app_nil_r.
  - rewrite foldl_app. simpl. rewrite lookup_append_at, IH.
    case_decide; [|done]. simpl. by rewrite fmap_app, app_assoc.
Qed.

(** What [concat] leaves under each key. *)
Lemma lookup_concat (t other : tago.Instructions) (prefix k : bytes) :
  tago.concat t other prefix !! k =
  match other !! k with
  | None => t !! k
  | Some vs => Some (default [] (t !! k) ++ ((fun v => prefix ++ v) <$> vs))
  end.
Proof.
  unfold tago.concat. revert k.
  apply (map_fold_weak_ind
           (fun (r : tago.Instructions) (m : tago.Instructions) =>
              forall k, r !! k =
                match m !! k with
                | None => t !! k
                | Some vs => Some (default [] (t !! k) ++ ((fun v => prefix ++ v) <$> vs))
                end)).
  - intros k. by rewrite lookup_empty.
  - intros key vs m r Hm IH k.
    rewrite lookup_foldl_append_at. case_decide as Hk.
    + subst. rewrite lookup_insert_eq, IH, Hm. done.
    + rewrite lookup_insert_ne by done. apply IH.
Qed.

Lemma concat_empty_r (t : tago.Instructions) (prefix : bytes) : tago.concat t ∅ prefix = t.
Proof. apply map_eq. intros k. by rewrite lookup_concat, lookup_empty. Qed.

(** ** The tag parser *)

Lemma lookup_GetFromField_step (name : bytes) (tags : tago.Instructions)
    (d k : bytes) :
  tago.GetFromField_step name tags d !! k =
  if decide (tago.normalise d = k /\ k <> [])
  then Some (default [] (tags !! k) ++ [name])
  else tags !! k.
Proof.
  unfold tago.GetFromField_step. case_decide as Hd.
  - case_decide as Hk; [|done]. destruct Hk as [Hk1 Hk2]. congruence.
  - rewrite lookup_append_at. case_decide as Hk.
    + subst k. rewrite decide_True by done. rewrite lookup_ensure.
      rewrite decide_True by done. done.
    + rewrite decide_False by tauto. rewrite lookup_ensure.
      by rewrite decide_False.
Qed.

Lemma lookup_GetFromField_foldl (name : bytes) (ds : list bytes)
    (tags : tago.Instructions) (k : bytes) :
  foldl (tago.GetFromField_step name) tags ds !! k =
  match occurrences k ds with
  | 0 => tags !! k
  | n => Some (default [] (tags !! k) ++ replicate n name)
  end.
Proof.
  unfold occurrences.
  induction ds as [|d ds IH] using rev_ind; [done|].
  rewrite foldl_app, filter_app, length_app. simpl.
  rewrite lookup_GetFromField_step, IH.
  rewrite filter_cons, filter_nil. case_decide as Hd; simpl.
  - rewrite Nat.add_1_r.
    destruct (length _) as [|n]; simpl; [done|].
    rewrite <- app_assoc. do 2 f_equal. simpl. f_equal.
    by rewrite <- replicate_S_end.
  - by rewrite Nat.add_0_r.
Qed.

Lemma occurrences_pos k ds :
  0 < occurrences k ds <-> k <> [] /\ exists d, d ∈ ds /\ tago.normalise d = k.
Proof.
  unfold occurrences. split.
  - intros Hlen.
    destruct (filter _ ds) as [|d l] eqn:Hf; [simpl in Hlen; lia|].
    assert (d ∈ filter (fun d => tago.normalise d = k /\ k <> []) ds) as Hd
      by (rewrite Hf; left).
    apply list_elem_of_filter in Hd as [[? ?] ?]. eauto.
  - intros [Hk (d & Hd & Hn)].
    assert (d ∈ filter (fun d => tago.normalise d = k /\ k <> []) ds) as Hin
      by (apply list_elem_of_filter; auto).
    destruct (filter _ ds); [by apply elem_of_nil in Hin|simpl; lia].
Qed.

(** What [GetFromField] leaves under each key: the field's name, once per
    directive that normalises to the key. *)
Lemma lookup_GetFromField (t : tago.TaGo) (f : Reflect.StructField) (k : bytes) :
  tago.GetFromField t f !! k =
  match occurrences k (Strings.SplitSeq (raw_tag t f) ";") with
  | 0 => None
  | n => Some (replicate n (Reflect.Name f))
  end.
Proof.
  unfold tago.GetFromField. fold (raw_tag t f). case_decide as Hraw.
  - rewrite lookup_GetFromField_foldl, lookup_empty. done.
  - rewrite Hraw, lookup_empty. simpl.
    unfold occurrences. rewrite filter_cons, filter_nil.
    case_decide as Hk; [|done]. destruct Hk as [<- Hk]. done.
Qed.

Lemma elem_of_dom_GetFromField (t : tago.TaGo) (f : Reflect.StructField) (k : bytes) :
  k ∈ dom (tago.GetFromField t f) <->
  k <> [] /\ exists d, d ∈ Strings.SplitSeq (raw_tag t f) ";" /\ tago.normalise d = k.
Proof.
  rewrite elem_of_dom, lookup_GetFromField, <- occurrences_pos.
  destruct (occurrences _ _) as [|n].
  - split; [by intros [? ?]|lia].
  - split; [lia|by eauto].
Qed.

Lemma GetFromField_Some (t : tago.TaGo) (f : Reflect.StructField)
    (k : bytes) (l : list bytes) :
  tago.GetFromField t f !! k = Some l ->
  l <> [] /\ forall fn, fn ∈ l -> fn = Reflect.Name f.
Proof.
  rewrite lookup_GetFromField.
  destruct (occurrences _ _) as [|n]; [done|]. intros [= <-].
  split; [done|]. intros fn Hfn.
  change (fn ∈ replicate (S n) (Reflect.Name f)) in Hfn.
  by apply elem_of_replicate in Hfn as [-> _].
Qed.

(** ** Claims about the tag parser *)

(** C3: for every instruction [i] that parsing a field's raw tag produces,
    [Key i] holds no ['=']; [i] is the normalised form of a directive of
    the raw tag, and for every such directive, [Value i] is ["true"] when
    the directive holds no ['='], and otherwise the trimmed text after
    its first ['=']. *)
Theorem C3_key_value (t : tago.TaGo) (f : Reflect.StructField) (i : bytes) :
  i ∈ dom (tago.GetFromField t f) ->
  "=" ∉ tago.Key i /\
  (exists d, d ∈ Strings.SplitSeq (raw_tag t f) ";" /\ tago.normalise d = i) /\
  (forall d, d ∈ Strings.SplitSeq (raw_tag t f) ";" -> tago.normalise d = i ->
     ("=" ∉ d -> tago.Value i = str "true") /\
     (forall k v, d = k ++ "=" :: v -> "=" ∉ k ->
                  tago.Value i = Strings.TrimSpace v)).
Proof.
  intros [Hi Hd]%elem_of_dom_GetFromField.
  split; [apply Key_no_eq|]. split; [done|].
  intros d _ <-. split.
  - apply Value_normalise_no_eq.
  - intros k v -> Hk. by apply Value_normalise_eq.
Qed.

Lemma C3_key_value_witness :
  "=" ∉ tago.Key (str "otherOption=value") /\
  (exists d, d ∈ Strings.SplitSeq (str "preload=true;otherOption=value") ";" /\
             tago.normalise d = str "otherOption=value") /\
  (forall d, d ∈ Strings.SplitSeq (str "preload=true;otherOption=value") ";" ->
     tago.normalise d = str "otherOption=value" ->
     ("=" ∉ d -> tago.Value (str "otherOption=value") = str "true") /\
     (forall k v, d = k ++ "=" :: v -> "=" ∉ k ->
                  tago.Value (str "otherOption=value") = Strings.TrimSpace v)).
Proof.
  apply (C3_key_value Sample.tg
           (Sample.field "Field1" Sample.t_string
              (Sample.gorm2 "preload=true;otherOption=value"))
           (str "otherOption=value")).
  apply elem_of_dom. vm_compute. eauto.
Defined.

(** C4: parsing is a total function and never leaves the empty string as
    a key: the keys of the index of a field are exactly the non-empty
    normalised forms of the directives of its raw tag, so an empty
    directive is dropped; and a raw tag that is empty or holds white space
    only gives the empty index. *)
Theorem C4_no_empty_instruction (t : tago.TaGo) (f : Reflect.StructField) :
  tago.GetFromField t f !! [] = None /\
  (forall i : bytes,
      i ∈ dom (tago.GetFromField t f) <->
      i <> [] /\
      exists d, d ∈ Strings.SplitSeq (raw_tag t f) ";" /\ tago.normalise d = i) /\
  (Strings.onlySpace (raw_tag t f) -> tago.GetFromField t f = ∅).
Proof.
  split; [|split].
  - apply not_elem_of_dom. intros [? _]%elem_of_dom_GetFromField. done.
  - apply elem_of_dom_GetFromField.
  - intros Hs. apply map_eq. intros k.
    rewrite lookup_GetFromField, lookup_empty.
    assert (";" ∉ raw_tag t f) as Hsemi by by apply onlySpace_no_low.
    assert ("=" ∉ raw_tag t f) as Heq by by apply onlySpace_no_low.
    rewrite SplitSeq_no_sep by done.
    destruct (occurrences k [raw_tag t f]) as [|n] eqn:Hocc; [done|].
    assert (0 < occurrences k [raw_tag t f]) as Hpos by lia.
    apply occurrences_pos in Hpos as [Hk (d & Hd & Hn)].
    apply list_elem_of_singleton in Hd as ->.
    rewrite normalise_no_eq, onlySpace_TrimSpace in Hn by done. congruence.
Qed.

Lemma onlySpace_sample : Strings.onlySpace [" "; "194"; "160"; "009"].
Proof.
  apply (Strings.onlySpace_rune [" "]); [done..|].
  apply (Strings.onlySpace_rune ["194"; "160"]); [done..|].
  apply (Strings.onlySpace_rune ["009"] []); [done..|].
  constructor.
Qed.

Lemma C4_no_empty_instruction_witness :
  tago.GetFromField Sample.tg
    (Sample.field "Field1" Sample.t_string
       [(str "gorm2", [" "; "194"; "160"; "009"])]) = ∅.
Proof.
  apply (C4_no_empty_instruction Sample.tg
           (Sample.field "Field1" Sample.t_string
              [(str "gorm2", [" "; "194"; "160"; "009"])])).
  exact onlySpace_sample.
Defined.

(** Stray separators: the empty directive of ["a=1;;b=2"] is dropped. *)
Example GetFromField_stray_separator :
  tago.GetFromField Sample.tg (Sample.field "F" Sample.t_int (Sample.gorm2 "a=1;;b=2"))
  = {[ str "a=1" := [str "F"]; str "b=2" := [str "F"] ]}.
Proof. reflexivity. Qed.

(** C6: the normalised string of an instruction produced by parsing, read
    again as a raw tag, parses to that same instruction and no other. *)
Theorem C6_reparse (t t' : tago.TaGo) (f f' : Reflect.StructField) (i : bytes) :
  i ∈ dom (tago.GetFromField t f) ->
  raw_tag t' f' = i ->
  tago.GetFromField t' f' = {[ i := [Reflect.Name f'] ]}.
Proof.
  intros [Hi (d & Hd & Hn)]%elem_of_dom_GetFromField Hraw.
  assert (";" ∉ i) as Hsemi.
  { rewrite <- Hn. apply normalise_no_sep; [done|]. by eapply SplitSeq_elem. }
  assert (tago.normalise i = i) as Hid by (rewrite <- Hn; apply normalise_idemp).
  apply map_eq. intros k.
  rewrite lookup_GetFromField, Hraw, SplitSeq_no_sep by done.
  unfold occurrences. rewrite filter_cons, filter_nil.
  case_decide as Hk; simpl.
  - destruct Hk as [Hk _]. rewrite Hid in Hk. subst k.
    by rewrite lookup_singleton_eq.
  - rewrite lookup_singleton_ne; [done|]. intros <-. tauto.
Qed.

Lemma C6_reparse_witness :
  tago.GetFromField Sample.tg
    (Sample.field "G" Sample.t_int [(str "gorm2", str "a=b = c")])
  = {[ str "a=b = c" := [str "G"] ]}.
Proof.
  apply (C6_reparse Sample.tg Sample.tg
           (Sample.field "F" Sample.t_int (Sample.gorm2 " x ; a = b = c "))
           (Sample.field "G" Sample.t_int [(str "gorm2", str "a=b = c")])).
  - apply elem_of_dom. vm_compute. eauto.
  - reflexivity.
Defined.

(** C10: a directive whose key part trims to nothing is kept: it gives the
    instruction ["="] followed by the trimmed value, whose [Key] is empty
    and whose [Value] is the trimmed value; a directive is dropped only
    when its whole normalised string is empty. *)
Theorem C10_empty_key (t : tago.TaGo) (f : Reflect.StructField) (d k v : bytes) :
  d ∈ Strings.SplitSeq (raw_tag t f) ";" ->
  d = k ++ "=" :: v -> "=" ∉ k -> Strings.TrimSpace k = [] ->
  tago.normalise d = "=" :: Strings.TrimSpace v /\
  ("=" :: Strings.TrimSpace v) ∈ dom (tago.GetFromField t f) /\
  tago.Key ("=" :: Strings.TrimSpace v) = [] /\
  tago.Value ("=" :: Strings.TrimSpace v) = Strings.TrimSpace v /\
  (forall d', d' ∈ Strings.SplitSeq (raw_tag t f) ";" ->
              tago.normalise d' <> [] ->
              tago.normalise d' ∈ dom (tago.GetFromField t f)).
Proof.
  intros Hd -> Hk Hkt.
  assert (tago.normalise (k ++ "=" :: v) = "=" :: Strings.TrimSpace v) as Hn.
  { rewrite normalise_eq by done. by rewrite Hkt. }
  split; [done|]. split; [|split; [|split]].
  - apply elem_of_dom_GetFromField. split; [done|]. eauto.
  - by rewrite Key_cases.
  - rewrite Value_cases. simpl. apply TrimSpace_idemp.
  - intros d' Hd' Hne. apply elem_of_dom_GetFromField. eauto.
Qed.

Lemma C10_empty_key_witness :
  tago.normalise (str " = value") = str "=value" /\
  str "=value" ∈
    dom (tago.GetFromField Sample.tg
           (Sample.field "F" Sample.t_int (Sample.gorm2 "a; = value"))) /\
  tago.Key (str "=value") = [] /\
  tago.Value (str "=value") = str "value" /\
  (forall d', d' ∈ Strings.SplitSeq (str "a; = value") ";" ->
              tago.normalise d' <> [] ->
              tago.normalise d' ∈
                dom (tago.GetFromField Sample.tg
                       (Sample.field "F" Sample.t_int (Sample.gorm2 "a; = value")))).
Proof.
  apply (C10_empty_key Sample.tg
           (Sample.field "F" Sample.t_int (Sample.gorm2 "a; = value"))
           (str " = value") (str " ") (str " value")).
  - vm_compute. set_solver.
  - reflexivity.
  - vm_compute. set_solver.
  - reflexivity.
Defined.

(** The raw tags ["=value"] and [" = value"] both give the instruction
    ["=value"]. *)
Example GetFromField_empty_key :
  tago.GetFromField Sample.tg (Sample.field "F" Sample.t_int (Sample.gorm2 "=value"))
  = {[ str "=value" := [str "F"] ]} /\
  tago.GetFromField Sample.tg (Sample.field "F" Sample.t_int (Sample.gorm2 " = value"))
  = {[ str "=value" := [str "F"] ]}.
Proof. split; reflexivity. Qed.

(** ** The type walker *)



Lemma typeToElem_struct id :
  tago.typeToElem (Reflect.TStruct id) = Reflect.TStruct id.
Proof. done. Qed.

Lemma kind_struct t :
  Reflect.kind t = Reflect.Struct <-> exists id, t = Reflect.TStruct id.
Proof.
  split; [|by intros [id ->]]. destruct t; try done. eauto.
Qed.

(** ** Listing and non-emptiness through the merges *)

Lemma listed_empty (i fn : bytes) : ~ listed ∅ i fn.
Proof. intros (l & Hl & _). by rewrite lookup_empty in Hl. Qed.

Lemma listed_concat (t other : tago.Instructions) (prefix i fn : bytes) :
  listed (tago.concat t other prefix) i fn <->
  listed t i fn \/ exists v, listed other i v /\ fn = prefix ++ v.
Proof.
  unfold listed. rewrite lookup_concat.
  destruct (other !! i) as [vs|] eqn:Ho.
  - split.
    + intros (l & [= <-] & Hfn).
      apply elem_of_app in Hfn as [Hfn|Hfn].
      * left. destruct (t !! i) as [l|]; simpl in Hfn; [eauto|by apply elem_of_nil in Hfn].
      * right. apply list_elem_of_fmap in Hfn as (v & -> & Hv). eauto.
    + intros [(l & Hl & Hfn)|(v & (l & [= <-] & Hv) & ->)].
      * eexists. split; [done|]. rewrite Hl. simpl. set_solver.
      * eexists. split; [done|]. apply elem_of_app. right.
        apply list_elem_of_fmap. eauto.
  - split; [by left|]. intros [?|(v & (l & ? & _) & _)]; done.
Qed.

Lemma listed_GetFromField (t : tago.TaGo) (f : Reflect.StructField) (i fn : bytes) :
  listed (tago.GetFromField t f) i fn <->
  i ∈ dom (tago.GetFromField t f) /\ fn = Reflect.Name f.
Proof.
  unfold listed. rewrite elem_of_dom. split.
  - intros (l & Hl & Hfn). split; [by eexists|].
    by apply (GetFromField_Some t f i l).
  - intros [[l Hl] ->]. exists l. split; [done|].
    destruct (GetFromField_Some t f i l Hl) as [Hne Hall].
    destruct l as [|x l]; [done|]. rewrite (Hall x); left.
Qed.

Lemma nonempty_lists_empty : nonempty_lists ∅.
Proof. intros k l Hl. by rewrite lookup_empty in Hl. Qed.

Lemma nonempty_lists_GetFromField (t : tago.TaGo) (f : Reflect.StructField) :
  nonempty_lists (tago.GetFromField t f).
Proof. intros k l Hl. by apply (GetFromField_Some t f k l). Qed.

Lemma nonempty_lists_concat (t other : tago.Instructions) (prefix : bytes) :
  nonempty_lists t -> nonempty_lists other ->
  nonempty_lists (tago.concat t other prefix).
Proof.
  intros Ht Ho k l. rewrite lookup_concat.
  destruct (other !! k) as [vs|] eqn:Hk; [|apply Ht].
  intros [= <-]. specialize (Ho k vs Hk).
  destruct vs; [done|]. by destruct (default [] (t !! k)).
Qed.

(** ** Loops whose body may fail *)

Lemma foldM_app {A B} (f : B -> A -> result B) (b : B) (l1 l2 : list A) :
  foldM f b (l1 ++ l2) = b' ← foldM f b l1; foldM f b' l2.
Proof.
  revert b. induction l1 as [|a l1 IH]; intros b; simpl; [done|].
  destruct (f b a); simpl; [apply IH|done..].
Qed.

Lemma foldM_total {A B} (f : B -> A -> result B) (b : B) (l : list A) :
  (forall b a, a ∈ l -> exists b', f b a = Ok b') ->
  exists r, foldM f b l = Ok r.
Proof.
  revert b. induction l as [|a l IH]; intros b Hf; simpl; [eauto|].
  destruct (Hf b a) as [b' ->]; [left|]. simpl.
  apply IH. intros b0 a0 Ha0. apply Hf. by right.
Qed.


Lemma descends_cases (T : Reflect.TypeId) (f : Reflect.StructField) :
  (exists T', descends T f T') \/ (forall T', ~ descends T f T').
Proof.
  unfold descends.
  destruct (tago.typeToElem (Reflect.Type_ f)) as [T'| | |] eqn:HT;
    try (right; intros T' [? _]; done).
  destruct (decide (Reflect.String (Reflect.TStruct T') =
                    Reflect.String (Reflect.TStruct T))) as [Heq|Hne].
  - right. intros T'' [[= <-] Hs]. done.
  - left. eauto.
Qed.

(** ** Flat and nested extraction *)

Section Extraction.

Variable decls : Reflect.TypeId -> list Reflect.StructField.
Variable t : tago.TaGo.

(** One field of the loop of [getNested]: the field's own index is merged
    under the prefix, then the index of the nested type, if the traversal
    descends into it. *)
Lemma getNested_step_Ok
    (recurse : Reflect.rtype -> bytes -> result tago.Instructions)
    (T : Reflect.TypeId) (prefix sep : bytes)
    (tags tags' : tago.Instructions) (f : Reflect.StructField) :
  tago.getNested_step recurse t (Reflect.TStruct T) prefix sep tags f = Ok tags' <->
  exists nested : tago.Instructions,
    tags' = tago.concat (tago.concat tags (tago.GetFromField t f) prefix) nested [] /\
    ((exists T', descends T f T' /\
                 recurse (Reflect.TStruct T') (prefix ++ Reflect.Name f ++ sep) = Ok nested)
     \/ ((forall T', ~ descends T f T') /\ nested = ∅)).
Proof.
  unfold tago.getNested_step, descends.
  destruct (decide (Reflect.String (tago.typeToElem (Reflect.Type_ f)) <>
                    Reflect.String (Reflect.TStruct T))) as [Hne|Heq].
  - destruct (decide (Reflect.kind (tago.typeToElem (Reflect.Type_ f)) = Reflect.Struct))
      as [Hk|Hk].
    + apply kind_struct in Hk as [T' HT']. rewrite HT' in Hne |- *.
      destruct (recurse _ _) as [nested| |] eqn:Hrec; simpl.
      * split.
        -- intros [= <-]. exists nested. split; [done|]. left. eauto.
        -- intros (nested' & -> & [(T'' & [[= <-] _] & Hrec')|[Hno _]]).
           ++ rewrite Hrec in Hrec'. by injection Hrec' as ->.
           ++ by destruct (Hno T').
      * split; [done|].
        intros (nested' & -> & [(T'' & [[= <-] _] & Hrec')|[Hno _]]);
          [congruence|by destruct (Hno T')].
      * split; [done|].
        intros (nested' & -> & [(T'' & [[= <-] _] & Hrec')|[Hno _]]);
          [congruence|by destruct (Hno T')].
    + assert (forall T', tago.typeToElem (Reflect.Type_ f) <> Reflect.TStruct T') as Hno.
      { intros T' HT'. apply Hk. by rewrite HT'. }
      split.
      * intros [= <-]. exists ∅. split; [by rewrite concat_empty_r|].
        right. split; [|done]. intros T' [HT' _]. by apply (Hno T').
      * intros (nested & -> & [(T' & [HT' _] & _)|[_ ->]]);
          [by destruct (Hno T')|by rewrite concat_empty_r].
  - apply dec_stable in Heq. split.
    + intros [= <-]. exists ∅. split; [by rewrite concat_empty_r|].
      right. split; [|done]. intros T' [HT' Hs]. apply Hs. by rewrite <- HT'.
    + intros (nested & -> & [(T' & [HT' Hs] & _)|[_ ->]]).
      * destruct Hs. by rewrite <- HT'.
      * by rewrite concat_empty_r.
Qed.

Lemma getNested_unfold (depth : nat) (model : Reflect.rtype) (T : Reflect.TypeId)
    (prefix sep : bytes) :
  tago.typeToElem model = Reflect.TStruct T ->
  tago.getNested decls (S depth) t model prefix sep =
  foldM (tago.getNested_step (fun m p => tago.getNested decls depth t m p sep)
                             t (Reflect.TStruct T) prefix sep)
        ∅ (decls T).
Proof. intros HT. simpl. by rewrite HT. Qed.

(** With enough depth for the rank of the type, [getNested] returns. *)
Lemma getNested_terminates (rank : Reflect.TypeId -> nat) (sep : bytes) :
  nesting_rank decls rank ->
  forall (depth : nat) (model : Reflect.rtype) (T : Reflect.TypeId) (prefix : bytes),
    tago.typeToElem model = Reflect.TStruct T -> rank T < depth ->
    exists idx, tago.getNested decls depth t model prefix sep = Ok idx.
Proof.
  intros Hrank. induction depth as [|depth IH]; intros model T prefix HT Hd; [lia|].
  rewrite (getNested_unfold _ _ T) by done.
  apply foldM_total. intros tags f Hf.
  destruct (descends_cases T f) as [[T' HT']|Hno].
  - destruct (IH (Reflect.TStruct T') T' (prefix ++ Reflect.Name f ++ sep))
      as [nested Hnested]; [done|specialize (Hrank T f T' Hf HT'); lia|].
    eexists. apply getNested_step_Ok. exists nested. split; [done|]. left. eauto.
  - eexists. apply getNested_step_Ok. exists ∅. split; [done|]. right.
    split; [|done]. done.
Qed.

(** What a returned nested index lists: the prefixed paths of the
    declarations reachable from the type. *)
Lemma getNested_listed (sep : bytes) :
  forall (depth : nat) (model : Reflect.rtype) (T : Reflect.TypeId) (prefix : bytes)
         (idx : tago.Instructions),
    tago.typeToElem model = Reflect.TStruct T ->
    tago.getNested decls depth t model prefix sep = Ok idx ->
    forall i fn : bytes,
      listed idx i fn <->
      exists path name, declared decls t T i path name /\
                        fn = prefix ++ path_name sep path name.
Proof.
  induction depth as [|depth IH]; intros model T prefix idx HT; [done|].
  rewrite (getNested_unfold _ _ T) by done. intros Hfold i fn.
  (* the loop, generalised to any tail of the field list *)
  assert (forall fs (acc : tago.Instructions),
             (forall f, f ∈ fs -> f ∈ decls T) ->
             foldM (tago.getNested_step
                      (fun m p => tago.getNested decls depth t m p sep)
                      t (Reflect.TStruct T) prefix sep) acc fs = Ok idx ->
             listed idx i fn <->
             listed acc i fn \/
             exists f, f ∈ fs /\
               ((i ∈ dom (tago.GetFromField t f) /\ fn = prefix ++ Reflect.Name f)
                \/ exists T' path name,
                     descends T f T' /\ declared decls t T' i path name /\
                     fn = (prefix ++ Reflect.Name f ++ sep) ++ path_name sep path name))
    as Hloop.
  { clear Hfold. induction fs as [|f fs IHfs]; intros acc Hsub; simpl.
    - intros [= <-]. split; [by left|]. intros [?|(f & Hf & _)]; [done|].
      by apply elem_of_nil in Hf.
    - destruct (tago.getNested_step _ _ _ _ _ acc f) as [acc'| |] eqn:Hstep;
        simpl; [|done..].
      intros Hrest. rewrite (IHfs acc') by (try done; intros; apply Hsub; by right).
      apply getNested_step_Ok in Hstep as (nested & -> & Hnested).
      rewrite !listed_concat. setoid_rewrite listed_GetFromField.
      assert ((exists v, listed nested i v /\ fn = [] ++ v) <->
              exists T' path name,
                descends T f T' /\ declared decls t T' i path name /\
                fn = (prefix ++ Reflect.Name f ++ sep) ++ path_name sep path name)
        as Hn.
      { destruct Hnested as [(T' & HT' & Hrec)|[Hno ->]].
        - split.
          + intros (v & Hv & ->). simpl.
            apply (IH _ T' _ _ (typeToElem_struct T') Hrec) in Hv
              as (path & name & Hdecl & ->).
            exists T', path, name. done.
          + intros (T'' & path & name & HT'' & Hdecl & ->).
            assert (T'' = T') as -> by (destruct HT', HT''; congruence).
            eexists. split; [|done].
            apply (IH _ T' _ _ (typeToElem_struct T') Hrec). eauto.
        - split.
          + intros (v & Hv & _). by apply listed_empty in Hv.
          + intros (T' & _ & _ & HT' & _). by destruct (Hno T'). }
      rewrite Hn. clear Hn. split.
      + intros [[[Hacc|(v & [Hi ->] & ->)]|Hnest]|(f' & Hf' & Hcase)].
        * by left.
        * right. exists f. split; [left|]. by left.
        * right. exists f. split; [left|]. by right.
        * right. exists f'. split; [by right|done].
      + intros [Hacc|(f' & [->|Hf']%elem_of_cons & Hcase)].
        * by do 3 left.
        * left. destruct Hcase as [[Hi ->]|Hnest]; [|by right].
          left. right. eauto.
        * right. eauto. }
  rewrite (Hloop (decls T) ∅ (fun _ H => H) Hfold). clear Hloop Hfold. split.
  - intros [Hacc|(f & Hf & [[Hi ->]|(T' & path & name & HT' & Hdecl & ->)])].
    + by apply listed_empty in Hacc.
    + exists [], (Reflect.Name f). split; [by constructor|done].
    + exists (Reflect.Name f :: path), name. split; [by econstructor|].
      simpl. by rewrite <- !app_assoc.
  - intros (path & name & Hdecl & ->). right.
    destruct Hdecl as [T f i Hf Hi|T f T' i path name Hf HT' Hdecl].
    + exists f. split; [done|]. by left.
    + exists f. split; [done|]. right. exists T', path, name.
      split; [done|]. split; [done|]. simpl. by rewrite <- !app_assoc.
Qed.


Lemma Get_nonempty (model : Reflect.rtype) (idx : tago.Instructions) :
  tago.Get decls t model = Ok idx -> nonempty_lists idx.
Proof.
  unfold tago.Get.
  destruct (tago.fields decls (tago.typeToElem model)) as [fs| |]; simpl; [|done..].
  intros [= <-]. generalize (∅ : tago.Instructions) nonempty_lists_empty.
  induction fs as [|f fs IH]; intros acc Hacc; simpl; [done|].
  apply IH. apply nonempty_lists_concat; [done|apply nonempty_lists_GetFromField].
Qed.

(** On a struct type whose struct-typed fields all have the type itself,
    nested extraction never recurses: it returns, at any positive depth,
    what flat extraction returns. *)
Lemma getNested_only_self_reference (depth : nat) (model : Reflect.rtype)
    (T : Reflect.TypeId) (sep : bytes) :
  tago.typeToElem model = Reflect.TStruct T ->
  only_self_reference decls T ->
  tago.GetNested decls (S depth) t model sep = tago.Get decls t model.
Proof.
  intros HT Hself. unfold tago.GetNested, tago.Get.
  rewrite (getNested_unfold _ _ T) by done. rewrite HT. simpl.
  assert (forall f, f ∈ decls T -> f ∈ decls T) as Hsub by done.
  revert Hsub. generalize (decls T) at 1 3 4. generalize (∅ : tago.Instructions).
  intros acc fs. revert acc. induction fs as [|f fs IH]; intros acc Hsub; simpl; [done|].
  assert (tago.getNested_step
            (fun m p => tago.getNested decls depth t m p sep)
            t (Reflect.TStruct T) [] sep acc f
          = Ok (tago.concat acc (tago.GetFromField t f) [])) as ->.
  { apply getNested_step_Ok. exists ∅. split; [by rewrite concat_empty_r|].
    right. split; [|done]. intros T' [HT' Hs]. apply Hs.
    rewrite <- HT', (Hself f); [done|apply Hsub; left|by rewrite HT']. }
  simpl. apply IH. intros f' Hf'. apply Hsub. by right.
Qed.

End Extraction.

(** ** Claims about extraction *)

Lemma Sample_nesting_rank : nesting_rank Sample.decls Sample.rank.
Proof.
  intros T f T' Hf [HT' Hs]. unfold Sample.decls, Sample.rank in *.
  repeat case_decide; subst; set_unfold in Hf;
    repeat match goal with
           | H : _ \/ _ |- _ => destruct H as [H|H]
           | H : False |- _ => destruct H
           end; subst; simpl in HT'; simplify_eq; try done; try lia.
Qed.

(** C1: on declarations that are acyclic along the fields the traversal
    descends into, [GetNested] returns, and the field names it lists under
    an instruction are exactly the names [F1+sep+...+Fn+sep+name] of the
    fields [name] that declare the instruction, [F1..Fn] being the fields
    descended through from the root. *)
Theorem C1_nested_paths (decls : Reflect.TypeId -> list Reflect.StructField)
    (rank : Reflect.TypeId -> nat) (t : tago.TaGo) (sep : bytes)
    (model : Reflect.rtype) (T : Reflect.TypeId) (depth : nat) :
  nesting_rank decls rank ->
  tago.typeToElem model = Reflect.TStruct T ->
  rank T < depth ->
  exists idx : tago.Instructions,
    tago.GetNested decls depth t model sep = Ok idx /\
    forall i fn : bytes,
      listed idx i fn <->
      exists path name, declared decls t T i path name /\
                        fn = path_name sep path name.
Proof.
  intros Hrank HT Hd. unfold tago.GetNested.
  destruct (getNested_terminates decls t rank sep Hrank depth model T [] HT Hd)
    as [idx Hidx].
  exists idx. split; [done|]. intros i fn.
  apply (getNested_listed decls t sep depth model T [] idx HT Hidx).
Qed.

Lemma C1_nested_paths_witness :
  exists idx : tago.Instructions,
    tago.GetNested Sample.decls 2 Sample.tg
      (Reflect.TPtr (Reflect.TStruct Sample.MyModel)) (str ".") = Ok idx /\
    forall i fn : bytes,
      listed idx i fn <->
      exists path name, declared Sample.decls Sample.tg Sample.MyModel i path name /\
                        fn = path_name (str ".") path name.
Proof.
  apply (C1_nested_paths Sample.decls Sample.rank Sample.tg (str ".")
           (Reflect.TPtr (Reflect.TStruct Sample.MyModel)) Sample.MyModel 2).
  - exact Sample_nesting_rank.
  - reflexivity.
  - vm_compute. lia.
Defined.

(** The index of the comment of [Get]: the nested struct is not entered. *)
Example Get_MyModel :
  tago.Get Sample.decls Sample.tg (Reflect.TPtr (Reflect.TStruct Sample.MyModel))
  = Ok {[ str "preload=true" := [str "Field1"; str "Field3"];
          str "otherOption=value" := [str "Field1"] ]}.
Proof. reflexivity. Qed.

(** [Get] on a value that is not a struct panics in [NumField]. *)
Example Get_not_a_struct :
  tago.Get Sample.decls Sample.tg Sample.t_int = Panic.
Proof. reflexivity. Qed.

(** The index of the comment of [GetNested]. *)
Example GetNested_MyModel :
  tago.GetNested Sample.decls 2 Sample.tg
    (Reflect.TPtr (Reflect.TStruct Sample.MyModel)) (str ".")
  = Ok {[ str "preload=true" := [str "Field1"; str "Field3"; str "Field3.Subfield1"];
          str "otherOption=value" := [str "Field1"];
          str "otherOption=value2" := [str "Field3.Subfield1"] ]}.
Proof. reflexivity. Qed.

(** A struct that refers to itself through a pointer and a slice: the
    traversal returns at depth 1 with the directives of the top level. *)
Example GetNested_Node :
  tago.GetNested Sample.decls_node 1 Sample.tg (Reflect.TStruct Sample.Node) (str ".")
  = Ok {[ str "index" := [str "Label"]; str "preload" := [str "Next"] ]}.
Proof. reflexivity. Qed.

(** C2, at a field whose type is another struct with the same [String()]:
    [AppUser] and [BillingUser] are distinct types, the field [Billing] of
    the first has, unwrapped, the second as its type, and the traversal
    does not descend into it: the directive of [BillingUser.Plan] is not
    in the index. *)
Theorem C2_same_String_not_descended :
  Sample.AppUser <> Sample.BillingUser /\
  tago.typeToElem (Reflect.TPtr (Reflect.TStruct Sample.BillingUser))
  = Reflect.TStruct Sample.BillingUser /\
  tago.Get Sample.decls_users Sample.tg (Reflect.TStruct Sample.BillingUser)
  = Ok {[ str "mask" := [str "Plan"] ]} /\
  tago.GetNested Sample.decls_users 3 Sample.tg
    (Reflect.TStruct Sample.AppUser) (str ".")
  = Ok {[ str "index" := [str "Email"]; str "preload" := [str "Billing"] ]}.
Proof. repeat split; by vm_compute. Qed.

(** C8: [Has] returns true exactly when the instruction is a key of the
    index [Get] computes for the record, and false otherwise, also for an
    instruction that only the nested index holds. *)
Theorem C8_Has (decls : Reflect.TypeId -> list Reflect.StructField)
    (t : tago.TaGo) (model : Reflect.rtype) (i : bytes) (idx : tago.Instructions) :
  tago.Get decls t model = Ok idx ->
  (tago.Has decls t model i = Ok true <-> i ∈ dom idx) /\
  (tago.Has decls t model i = Ok false <-> i ∉ dom idx) /\
  (forall (depth : nat) (sep : bytes) (nested : tago.Instructions),
      tago.GetNested decls depth t model sep = Ok nested ->
      i ∈ dom nested -> i ∉ dom idx ->
      tago.Has decls t model i = Ok false).
Proof.
  intros Hget. unfold tago.Has. rewrite Hget. simpl.
  assert (forall b, Ok (bool_decide (is_Some (idx !! i))) = Ok b <->
                    bool_decide (i ∈ dom idx) = b) as Hb.
  { intros b. rewrite (bool_decide_ext _ (i ∈ dom idx)) by by rewrite elem_of_dom.
    split; [by intros [= <-]|by intros <-]. }
  rewrite !Hb, bool_decide_eq_true, bool_decide_eq_false.
  repeat split; try done. intros depth sep nested _ _ Hi.
  apply Hb. by apply bool_decide_eq_false.
Qed.

Lemma C8_Has_witness :
  tago.Has Sample.decls Sample.tg (Reflect.TStruct Sample.MyModel)
    (str "otherOption=value2") = Ok false.
Proof.
  refine (proj2 (proj2 (C8_Has Sample.decls Sample.tg (Reflect.TStruct Sample.MyModel)
                          (str "otherOption=value2") _ _)) 2 (str ".") _ _ _ _).
  - by vm_compute.
  - exact GetNested_MyModel.
  - apply elem_of_dom. vm_compute. eauto.
  - apply not_elem_of_dom. by vm_compute.
Defined.

Example Has_MyModel :
  tago.Has Sample.decls Sample.tg (Reflect.TStruct Sample.MyModel) (str "preload=true")
  = Ok true.
Proof. reflexivity. Qed.

(** ** The dispatcher *)

Section DispatchFacts.

Context {St : Type}.
Implicit Types (r : @tago.Run St) (action : @tago.Action St).






End DispatchFacts.





(** The run of the comment of [Apply]: two invocations for ["preload=true"],
    none for the key the index lacks, none for ["otherOption=value"],
    which the mapping lacks. *)
Example Apply_preloads :
  tago.Apply Sample.preloads
    [(str "absent", Sample.count); (str "preload=true", Sample.count)] (fresh 0)
  = {| tago.state := 2;
       tago.calls := [(str "preload=true", str "Field1");
                      (str "preload=true", str "Field3")] |}.
Proof. reflexivity. Qed.



(** * Further properties *)

(** ** Merging indexes *)

(** X1: after [concat], a key of [other] holds the names [t] had under it
    followed by the names of [other], each behind the prefix, in order; a
    key [other] lacks is left as it was; the keys are those of both. *)
Theorem X1_concat_lookup (t other : tago.Instructions) (prefix k : bytes) :
  tago.concat t other prefix !! k =
    match other !! k with
    | None => t !! k
    | Some vs =>
        Some (default [] (t !! k) ++ ((fun v => tago.AddPrefix v prefix) <$> vs))
    end /\
  dom (tago.concat t other prefix) = dom t ∪ dom other.
Proof.
  split; [apply lookup_concat|].
  apply set_eq. intros x.
  rewrite elem_of_union, !elem_of_dom, lookup_concat.
  destruct (other !! x) as [vs|]; split; try (intros [?|?]); eauto;
    by destruct H.
Qed.

Lemma fmap_prefix_nil (vs : list bytes) : (fun v : bytes => [] ++ v) <$> vs = vs.
Proof. induction vs; simpl; by f_equal. Qed.

(** X2: the empty index is neutral for [concat] on both sides, and merging
    an index that was itself built behind a prefix [q] puts the names
    behind [p ++ q]: the prefixes compose. *)
Theorem X2_concat_prefix (t other : tago.Instructions) (p q : bytes) :
  tago.concat t ∅ p = t /\
  tago.concat ∅ other [] = other /\
  tago.concat t (tago.concat ∅ other q) p = tago.concat t other (p ++ q).
Proof.
  split; [apply concat_empty_r|]. split; apply map_eq; intros k.
  - rewrite lookup_concat, lookup_empty.
    destruct (other !! k) as [vs|]; [|done]. simpl. by rewrite fmap_prefix_nil.
  - rewrite !lookup_concat, lookup_empty.
    destruct (other !! k) as [vs|]; [|done]. simpl. do 2 f_equal.
    rewrite <- list_fmap_compose. apply list_fmap_ext. intros _ v _. simpl.
    by rewrite app_assoc.
Qed.

(** X3: merging [a] and then [b] under one prefix is merging, under that
    prefix, the merge of [a] and [b]. *)
Theorem X3_concat_assoc (t a b : tago.Instructions) (p : bytes) :
  tago.concat (tago.concat t a p) b p = tago.concat t (tago.concat a b []) p.
Proof.
  apply map_eq. intros k. rewrite !lookup_concat.
  destruct (a !! k) as [va|] eqn:Ha, (b !! k) as [vb|] eqn:Hb; simpl;
    rewrite ?Ha, ?fmap_prefix_nil, ?fmap_app, ?app_assoc; done.
Qed.

(** ** Instructions *)

(** X4: an instruction produced by parsing is rebuilt from its accessors:
    without ['='] it is its [Key] (and its [Value] is ["true"]), with
    ['='] it is its [Key], ['='] and its [Value]. *)
Theorem X4_key_value_rebuild (t : tago.TaGo) (f : Reflect.StructField) (i : bytes) :
  i ∈ dom (tago.GetFromField t f) ->
  ("=" ∉ i -> i = tago.Key i /\ tago.Value i = str "true") /\
  ("=" ∈ i -> i = tago.Key i ++ "=" :: tago.Value i).
Proof.
  intros [_ (d & _ & <-)]%elem_of_dom_GetFromField.
  destruct (Strings.Cut d "=") as [[k v]|] eqn:Hcut.
  - apply Cut_Some in Hcut as [-> Hk]. split.
    + intros Hno. destruct Hno. rewrite normalise_eq by done. set_solver.
    + intros _. rewrite Key_normalise_eq, Value_normalise_eq by done.
      by apply normalise_eq.
  - apply Cut_None in Hcut. split.
    + intros _. split; [|by apply Value_normalise_no_eq].
      rewrite normalise_no_eq, Key_cases by done.
      assert ("=" ∉ Strings.TrimSpace d) as Hno by by apply TrimSpace_not_elem_of.
      apply Cut_None in Hno as ->. by rewrite TrimSpace_idemp.
    + intros Hin. rewrite normalise_no_eq in Hin by done.
      by apply TrimSpace_elem_of in Hin.
Qed.

Lemma X4_key_value_rebuild_witness :
  ("=" ∉ str "a=b = c" -> str "a=b = c" = tago.Key (str "a=b = c") /\
                          tago.Value (str "a=b = c") = str "true") /\
  ("=" ∈ str "a=b = c" ->
   str "a=b = c" = tago.Key (str "a=b = c") ++ "=" :: tago.Value (str "a=b = c")).
Proof.
  apply (X4_key_value_rebuild Sample.tg
           (Sample.field "F" Sample.t_int (Sample.gorm2 " x ; a = b = c "))
           (str "a=b = c")).
  apply elem_of_dom. vm_compute. eauto.
Defined.

(** X5: the accessors do not tell a flag from the same flag with the value
    ["true"], although the two are different instructions, hence
    different keys of an index. *)
Theorem X5_flag_true (k : bytes) :
  "=" ∉ k ->
  tago.Key (k ++ str "=true") = tago.Key k /\
  tago.Value (k ++ str "=true") = tago.Value k /\
  k ++ str "=true" <> k.
Proof.
  intros Hk. change (str "=true") with ("=" :: str "true").
  rewrite !Key_cases, !Value_cases, Cut_app by done.
  apply Cut_None in Hk as Hcut. rewrite Hcut. repeat split.
  intros Heq. apply (f_equal length) in Heq. rewrite length_app in Heq.
  simpl in Heq. lia.
Qed.

Lemma X5_flag_true_witness :
  tago.Key (str "preload" ++ str "=true") = tago.Key (str "preload") /\
  tago.Value (str "preload" ++ str "=true") = tago.Value (str "preload") /\
  str "preload" ++ str "=true" <> str "preload".
Proof. apply (X5_flag_true (str "preload")). vm_compute. set_solver. Defined.

(** ** The tag parser *)

(** X6: under each key the index of a field holds the name of the field
    and nothing else, once per directive of the raw tag that normalises
    to the key: a directive written twice lists the field twice. *)
Theorem X6_GetFromField_lists (t : tago.TaGo) (f : Reflect.StructField)
    (k : bytes) (l : list bytes) :
  tago.GetFromField t f !! k = Some l ->
  0 < occurrences k (Strings.SplitSeq (raw_tag t f) ";") /\
  l = replicate (occurrences k (Strings.SplitSeq (raw_tag t f) ";")) (Reflect.Name f).
Proof.
  rewrite lookup_GetFromField.
  destruct (occurrences _ _) as [|n]; [done|]. intros [= <-]. split; [lia|done].
Qed.

Lemma X6_GetFromField_lists_witness :
  0 < occurrences (str "a=1") (Strings.SplitSeq (str "a=1; a = 1") ";") /\
  [str "F"; str "F"] =
  replicate (occurrences (str "a=1") (Strings.SplitSeq (str "a=1; a = 1") ";"))
            (str "F").
Proof.
  apply (X6_GetFromField_lists Sample.tg
           (Sample.field "F" Sample.t_int (Sample.gorm2 "a=1; a = 1")) (str "a=1")).
  reflexivity.
Defined.

Lemma Reflect_Get_absent (tag : Reflect.StructTag) (key : bytes) :
  (forall v, (key, v) ∉ tag) -> Reflect.Get tag key = [].
Proof.
  induction tag as [|[k v] tag IH]; intros Hno; simpl; [done|].
  case_decide as Hk.
  - subst. destruct (Hno v). left.
  - apply IH. intros v' Hin. apply (Hno v'). by right.
Qed.

(** X7: a field whose tag has no entry for the configured name gives the
    empty index. *)
Theorem X7_GetFromField_no_tag (t : tago.TaGo) (f : Reflect.StructField) :
  (forall v, (tago.Name t, v) ∉ Reflect.Tag f) ->
  tago.GetFromField t f = ∅.
Proof.
  intros Hno. unfold tago.GetFromField.
  rewrite Reflect_Get_absent by done. by rewrite decide_False by auto.
Qed.

Lemma X7_GetFromField_no_tag_witness :
  tago.GetFromField Sample.tg
    (Sample.field "Name" Sample.t_string [(str "json", str "name")]) = ∅.
Proof.
  apply (X7_GetFromField_no_tag Sample.tg
           (Sample.field "Name" Sample.t_string [(str "json", str "name")])).
  intros v Hin. vm_compute in Hin. set_unfold in Hin.
  destruct Hin as [Hin|[]]. discriminate Hin.
Defined.

Lemma occurrences_directives (k : bytes) (ds : list bytes) :
  occurrences k ds =
  length (filter (fun i => i = k)
                 (filter (fun i : bytes => i <> []) (tago.normalise <$> ds))).
Proof.
  unfold occurrences. induction ds as [|d ds IH]; [done|].
  rewrite fmap_cons, !filter_cons.
  destruct (decide (tago.normalise d <> [])) as [Hne|He].
  - rewrite filter_cons. repeat case_decide; simpl; try (by rewrite IH);
      try tauto; subst; tauto.
  - apply dec_stable in He. repeat case_decide; simpl; try done.
    destruct H as [<- ?]. done.
Qed.

(** X8: the index of a field depends on its raw tag only through the
    non-empty normalised directives, whatever their order: white space
    around keys and values, empty directives and the order of the
    directives make no difference. *)
Theorem X8_GetFromField_directives (t t' : tago.TaGo) (f f' : Reflect.StructField) :
  Reflect.Name f = Reflect.Name f' ->
  directives (raw_tag t f) ≡ₚ directives (raw_tag t' f') ->
  tago.GetFromField t f = tago.GetFromField t' f'.
Proof.
  intros Hname Hperm. apply map_eq. intros k.
  rewrite !lookup_GetFromField, !occurrences_directives, Hname.
  fold (directives (raw_tag t f)). fold (directives (raw_tag t' f')).
  by rewrite Hperm.
Qed.

Lemma X8_GetFromField_directives_witness :
  tago.GetFromField Sample.tg (Sample.field "F" Sample.t_int (Sample.gorm2 "a=1;;b=2"))
  = tago.GetFromField Sample.tg
      (Sample.field "F" Sample.t_int (Sample.gorm2 " b = 2 ; a=1 ;")).
Proof.
  apply (X8_GetFromField_directives Sample.tg Sample.tg
           (Sample.field "F" Sample.t_int (Sample.gorm2 "a=1;;b=2"))
           (Sample.field "F" Sample.t_int (Sample.gorm2 " b = 2 ; a=1 ;"))).
  - reflexivity.
  - vm_compute. apply perm_swap.
Defined.

(** ** Flat extraction *)

Lemma lookup_Get_foldl (t : tago.TaGo) (fs : list Reflect.StructField)
    (acc : tago.Instructions) (k : bytes) :
  foldl (fun tags f => tago.concat tags (tago.GetFromField t f) []) acc fs !! k =
  match fs ≫= (fun f => default [] (tago.GetFromField t f !! k)) with
  | [] => acc !! k
  | l => Some (default [] (acc !! k) ++ l)
  end.
Proof.
  revert acc. induction fs as [|f fs IH]; intros acc; [done|].
  cbn [foldl]. rewrite IH, lookup_concat, bind_cons.
  generalize (fs ≫= (fun f => default [] (tago.GetFromField t f !! k))).
  intros rest.
  destruct (tago.GetFromField t f !! k) as [vs|] eqn:Hf; simpl; [|done].
  destruct (GetFromField_Some t f k vs Hf) as [Hne _].
  rewrite fmap_prefix_nil.
  destruct vs as [|v vs]; [done|].
  destruct rest as [|x l]; simpl.
  - by rewrite app_nil_r.
  - by rewrite <- app_assoc.
Qed.

Lemma Get_Ok (decls : Reflect.TypeId -> list Reflect.StructField) (t : tago.TaGo)
    (model : Reflect.rtype) (idx : tago.Instructions) :
  tago.Get decls t model = Ok idx <->
  exists T, tago.typeToElem model = Reflect.TStruct T /\
            idx = foldl (fun tags f => tago.concat tags (tago.GetFromField t f) [])
                        ∅ (decls T).
Proof.
  unfold tago.Get.
  destruct (tago.typeToElem model) as [T| | |]; simpl; split;
    try done; try (by intros (T' & [=] & _)).
  - intros [= <-]. eauto.
  - by intros (T' & [= <-] & ->).
Qed.

(** X9: the flat index lists under each key the names of the fields that
    declare it, in declaration order, each as often as its tag declares
    it; a key no field declares is absent. *)
Theorem X9_Get_lookup (decls : Reflect.TypeId -> list Reflect.StructField)
    (t : tago.TaGo) (model : Reflect.rtype) (idx : tago.Instructions) :
  tago.Get decls t model = Ok idx ->
  exists T, tago.typeToElem model = Reflect.TStruct T /\
    forall k : bytes,
      idx !! k = match own_names decls t T k with
                 | [] => None
                 | l => Some l
                 end.
Proof.
  intros (T & HT & ->)%Get_Ok. exists T. split; [done|]. intros k.
  rewrite lookup_Get_foldl, lookup_empty. unfold own_names.
  by destruct (decls T ≫= _).
Qed.

Lemma X9_Get_lookup_witness :
  exists T, tago.typeToElem (Reflect.TPtr (Reflect.TStruct Sample.MyModel))
            = Reflect.TStruct T /\
    forall k : bytes,
      ({[ str "preload=true" := [str "Field1"; str "Field3"];
          str "otherOption=value" := [str "Field1"] ]} : tago.Instructions) !! k
      = match own_names Sample.decls Sample.tg T k with
        | [] => None
        | l => Some l
        end.
Proof.
  apply (X9_Get_lookup Sample.decls Sample.tg
           (Reflect.TPtr (Reflect.TStruct Sample.MyModel))).
  reflexivity.
Defined.

Lemma typeToElem_wrappings (model : Reflect.rtype) (T : Reflect.TypeId) :
  tago.typeToElem model = Reflect.TStruct T <-> model ∈ wrappings T.
Proof.
  unfold wrappings. split.
  - destruct model as [T0|[T0|m2|[T0|[T0|m4|m4|k4 r4]|m3|k3 r3]|k2 r2]
                      |[T0|[T0|m3|m3|k3 r3]|m2|k2 r2]|k1 r1];
      simpl; intros [=]; subst; set_solver.
  - set_unfold. intros H. repeat destruct H as [H|H]; subst; done.
Qed.

(** X10: [Get] returns exactly on the values whose type is [T], [*T],
    [[]T], [[]*T], [*[]T] or [*[]*T] for a struct type [T], with the index
    of [T]; on every other type it panics. *)
Theorem X10_Get_outcome (decls : Reflect.TypeId -> list Reflect.StructField)
    (t : tago.TaGo) (model : Reflect.rtype) :
  (exists T idx, model ∈ wrappings T /\
                 tago.Get decls t model = Ok idx /\
                 tago.Get decls t (Reflect.TStruct T) = Ok idx) \/
  ((forall T, model ∉ wrappings T) /\ tago.Get decls t model = Panic).
Proof.
  destruct (tago.typeToElem model) as [T| | |] eqn:HT.
  - left. exists T. eexists. split; [by apply typeToElem_wrappings|].
    split; apply Get_Ok; exists T; done.
  - right. split; [intros T HT'%typeToElem_wrappings; congruence|].
    unfold tago.Get. by rewrite HT.
  - right. split; [intros T HT'%typeToElem_wrappings; congruence|].
    unfold tago.Get. by rewrite HT.
  - right. split; [intros T HT'%typeToElem_wrappings; congruence|].
    unfold tago.Get. by rewrite HT.
Qed.

Lemma Get_listed (decls : Reflect.TypeId -> list Reflect.StructField)
    (t : tago.TaGo) (T : Reflect.TypeId) (i fn : bytes) :
  listed (foldl (fun tags f => tago.concat tags (tago.GetFromField t f) [])
                ∅ (decls T)) i fn <->
  exists f, f ∈ decls T /\ i ∈ dom (tago.GetFromField t f) /\ fn = Reflect.Name f.
Proof.
  assert (forall fs (acc : tago.Instructions),
             listed (foldl (fun tags f => tago.concat tags (tago.GetFromField t f) [])
                           acc fs) i fn <->
             listed acc i fn \/
             exists f, f ∈ fs /\ i ∈ dom (tago.GetFromField t f) /\
                       fn = Reflect.Name f) as Hloop.
  { induction fs as [|f fs IH]; intros acc; simpl.
    - split; [by left|]. intros [?|(f & Hf & _)]; [done|by apply elem_of_nil in Hf].
    - rewrite IH, listed_concat. setoid_rewrite listed_GetFromField. split.
      + intros [[?|(v & [Hi ->] & ->)]|(f' & Hf' & Hrest)].
        * by left.
        * right. exists f. split; [left|done].
        * right. exists f'. split; [by right|done].
      + intros [?|(f' & [->|Hf']%elem_of_cons & Hi & ->)].
        * by do 2 left.
        * left. right. eauto.
        * right. eauto. }
  rewrite Hloop. split; [|by right]. intros [H|H]; [by apply listed_empty in H|done].
Qed.

(** X11: the flat index is part of the nested one: a name [Get] lists
    under an instruction is listed under it by [GetNested] too, so every
    key of the flat index is a key of the nested index. *)
Theorem X11_Get_in_GetNested (decls : Reflect.TypeId -> list Reflect.StructField)
    (t : tago.TaGo) (model : Reflect.rtype) (depth : nat) (sep : bytes)
    (idx nested : tago.Instructions) :
  tago.Get decls t model = Ok idx ->
  tago.GetNested decls depth t model sep = Ok nested ->
  (forall i fn : bytes, listed idx i fn -> listed nested i fn) /\
  dom idx ⊆ dom nested.
Proof.
  intros (T & HT & ->)%Get_Ok Hnested.
  assert (forall i fn : bytes,
             listed (foldl (fun tags f => tago.concat tags (tago.GetFromField t f) [])
                           ∅ (decls T)) i fn -> listed nested i fn) as Hsub.
  { intros i fn (f & Hf & Hi & ->)%Get_listed.
    apply (getNested_listed decls t sep depth model T [] nested HT Hnested).
    exists [], (Reflect.Name f). split; [by constructor|done]. }
  split; [done|]. intros i [l Hl]%elem_of_dom.
  assert (l <> []) as Hne.
  { eapply (Get_nonempty decls t model); [|done]. apply Get_Ok. eauto. }
  destruct l as [|fn l]; [done|].
  destruct (Hsub i fn) as (l' & Hl' & _); [exists (fn :: l); split; [done|left]|].
  apply elem_of_dom. eauto.
Qed.

Lemma X11_Get_in_GetNested_witness :
  (forall i fn : bytes,
      listed {[ str "preload=true" := [str "Field1"; str "Field3"];
                str "otherOption=value" := [str "Field1"] ]} i fn ->
      listed {[ str "preload=true" := [str "Field1"; str "Field3"; str "Field3.Subfield1"];
                str "otherOption=value" := [str "Field1"];
                str "otherOption=value2" := [str "Field3.Subfield1"] ]} i fn) /\
  dom ({[ str "preload=true" := [str "Field1"; str "Field3"];
          str "otherOption=value" := [str "Field1"] ]} : tago.Instructions)
  ⊆ dom ({[ str "preload=true" := [str "Field1"; str "Field3"; str "Field3.Subfield1"];
            str "otherOption=value" := [str "Field1"];
            str "otherOption=value2" := [str "Field3.Subfield1"] ]} : tago.Instructions).
Proof.
  apply (X11_Get_in_GetNested Sample.decls Sample.tg
           (Reflect.TPtr (Reflect.TStruct Sample.MyModel)) 2 (str ".")).
  - reflexivity.
  - reflexivity.
Defined.

(** X12: [Has] answers true exactly when some field of the struct itself
    has, for the configured tag, a directive whose normalised form is the
    instruction asked for, and false otherwise. *)
Theorem X12_Has_field (decls : Reflect.TypeId -> list Reflect.StructField)
    (t : tago.TaGo) (model : Reflect.rtype) (T : Reflect.TypeId) (i : bytes) :
  tago.typeToElem model = Reflect.TStruct T ->
  exists b : bool,
    tago.Has decls t model i = Ok b /\
    (b = true <->
     i <> [] /\
     exists f d, f ∈ decls T /\ d ∈ Strings.SplitSeq (raw_tag t f) ";" /\
                 tago.normalise d = i).
Proof.
  intros HT. unfold tago.Has.
  assert (tago.Get decls t model =
          Ok (foldl (fun tags f => tago.concat tags (tago.GetFromField t f) [])
                    ∅ (decls T))) as -> by (apply Get_Ok; eauto).
  simpl. eexists. split; [done|]. rewrite bool_decide_eq_true. split.
  - intros [l Hl].
    assert (l <> []) as Hne.
    { eapply (Get_nonempty decls t model); [|done]. apply Get_Ok. eauto. }
    destruct l as [|fn l]; [done|].
    assert (listed (foldl (fun tags f => tago.concat tags (tago.GetFromField t f) [])
                          ∅ (decls T)) i fn) as Hlisted
      by (exists (fn :: l); split; [done|left]).
    apply Get_listed in Hlisted as (f & Hf & Hi & _).
    apply elem_of_dom_GetFromField in Hi as [Hi (d & Hd & Hn)]. eauto 6.
  - intros [Hi (f & d & Hf & Hd & Hn)].
    assert (listed (foldl (fun tags f => tago.concat tags (tago.GetFromField t f) [])
                          ∅ (decls T)) i (Reflect.Name f)) as (l & Hl & _).
    { apply Get_listed. exists f. split; [done|]. split; [|done].
      apply elem_of_dom_GetFromField. eauto. }
    eauto.
Qed.

Lemma X12_Has_field_witness :
  exists b : bool,
    tago.Has Sample.decls Sample.tg (Reflect.TSlice (Reflect.TStruct Sample.MyModel))
      (str "otherOption=value") = Ok b /\
    (b = true <->
     str "otherOption=value" <> [] /\
     exists f d, f ∈ Sample.decls Sample.MyModel /\
                 d ∈ Strings.SplitSeq (raw_tag Sample.tg f) ";" /\
                 tago.normalise d = str "otherOption=value").
Proof.
  apply (X12_Has_field Sample.decls Sample.tg
           (Reflect.TSlice (Reflect.TStruct Sample.MyModel)) Sample.MyModel).
  reflexivity.
Defined.

(** ** Nested extraction *)

Lemma foldM_mono {A B} (f g : B -> A -> result B) (b : B) (l : list A) (r : B) :
  (forall b a b', f b a = Ok b' -> g b a = Ok b') ->
  foldM f b l = Ok r -> foldM g b l = Ok r.
Proof.
  intros Hfg. revert b. induction l as [|a l IH]; intros b; simpl; [done|].
  destruct (f b a) as [b'| |] eqn:Hf; simpl; [|done..].
  rewrite (Hfg b a b' Hf). simpl. apply IH.
Qed.

Lemma getNested_step_mono
    (rec1 rec2 : Reflect.rtype -> bytes -> result tago.Instructions)
    (t : tago.TaGo) (modelType : Reflect.rtype) (prefix sep : bytes)
    (tags tags' : tago.Instructions) (f : Reflect.StructField) :
  (forall m p r, rec1 m p = Ok r -> rec2 m p = Ok r) ->
  tago.getNested_step rec1 t modelType prefix sep tags f = Ok tags' ->
  tago.getNested_step rec2 t modelType prefix sep tags f = Ok tags'.
Proof.
  intros Hrec. unfold tago.getNested_step. repeat case_decide; try done.
  destruct (rec1 _ _) as [nested| |] eqn:H1; simpl; [|done..].
  by rewrite (Hrec _ _ _ H1).
Qed.

(** X13: the recursion budget does not change what [getNested] returns:
    the index returned at one depth is returned at every greater depth. *)
Theorem X13_getNested_depth (decls : Reflect.TypeId -> list Reflect.StructField)
    (t : tago.TaGo) (sep : bytes) (d d' : nat) (model : Reflect.rtype)
    (prefix : bytes) (idx : tago.Instructions) :
  d <= d' ->
  tago.getNested decls d t model prefix sep = Ok idx ->
  tago.getNested decls d' t model prefix sep = Ok idx.
Proof.
  intros Hle. revert model prefix idx.
  induction Hle as [|d' Hle IH]; [done|]. intros model prefix idx Hd.
  specialize (IH model prefix idx Hd). clear Hd Hle d.
  revert model prefix idx IH.
  induction d' as [|d IHd]; intros model prefix idx; [done|].
  cbn [tago.getNested].
  destruct (tago.fields decls (tago.typeToElem model)) as [fs| |]; simpl; [|done..].
  apply foldM_mono. intros tags f tags'. apply getNested_step_mono.
  intros m p r. apply IHd.
Qed.

Lemma X13_getNested_depth_witness :
  tago.getNested Sample.decls 7 Sample.tg (Reflect.TStruct Sample.MyModel) [] (str ".")
  = Ok {[ str "preload=true" := [str "Field1"; str "Field3"; str "Field3.Subfield1"];
          str "otherOption=value" := [str "Field1"];
          str "otherOption=value2" := [str "Field3.Subfield1"] ]}.
Proof.
  apply (X13_getNested_depth Sample.decls Sample.tg (str ".") 2 7).
  - lia.
  - reflexivity.
Defined.

Lemma relabel_concat (p q : bytes) (a o : tago.Instructions) :
  relabel p (tago.concat a o q) = tago.concat (relabel p a) o (p ++ q).
Proof.
  apply map_eq. intros k. unfold relabel.
  rewrite lookup_fmap, !lookup_concat, lookup_fmap.
  destruct (o !! k) as [vs|]; [|done]. simpl. f_equal.
  rewrite fmap_app. f_equal; [by destruct (a !! k)|].
  rewrite <- list_fmap_compose. apply list_fmap_ext. intros _ v _. simpl.
  by rewrite app_assoc.
Qed.

Lemma relabel_concat_nil (p : bytes) (a o : tago.Instructions) :
  relabel p (tago.concat a o []) = tago.concat (relabel p a) (relabel p o) [].
Proof.
  apply map_eq. intros k. unfold relabel.
  rewrite lookup_fmap, !lookup_concat, !lookup_fmap.
  destruct (o !! k) as [vs|]; [|done]. simpl. f_equal.
  rewrite !fmap_prefix_nil, fmap_app. f_equal. by destruct (a !! k).
Qed.

Lemma relabel_empty (p : bytes) : relabel p ∅ = ∅.
Proof. unfold relabel. apply fmap_empty. Qed.

(** X14: the prefix of [getNested] only labels the result: called with the
    prefix [p ++ q] it has the outcome it has with the prefix [q], every
    field name of the index behind [p]. *)
Theorem X14_getNested_prefix (decls : Reflect.TypeId -> list Reflect.StructField)
    (t : tago.TaGo) (sep : bytes) (depth : nat) (model : Reflect.rtype)
    (p q : bytes) :
  tago.getNested decls depth t model (p ++ q) sep =
  result_map (relabel p) (tago.getNested decls depth t model q sep).
Proof.
  revert model q. induction depth as [|depth IH]; intros model q; [done|].
  cbn [tago.getNested].
  destruct (tago.fields decls (tago.typeToElem model)) as [fs| |]; simpl; [|done..].
  rewrite <- (relabel_empty p) at 1.
  generalize (∅ : tago.Instructions).
  induction fs as [|f fs IHfs]; intros acc; simpl; [done|].
  assert (tago.getNested_step
            (fun m p0 => tago.getNested decls depth t m p0 sep)
            t (tago.typeToElem model) (p ++ q) sep (relabel p acc) f
          = result_map (relabel p)
              (tago.getNested_step
                 (fun m p0 => tago.getNested decls depth t m p0 sep)
                 t (tago.typeToElem model) q sep acc f)) as ->.
  { unfold tago.getNested_step. rewrite <- relabel_concat.
    repeat case_decide; try done.
    rewrite <- app_assoc, IH.
    destruct (tago.getNested decls depth t _ _ sep) as [nested| |]; simpl; [|done..].
    by rewrite relabel_concat_nil. }
  destruct (tago.getNested_step _ _ _ q _ acc f) as [acc'| |]; simpl; [|done..].
  apply IHfs.
Qed.

(** X15: the nested index of a struct holds the nested index of the type of
    each field it descends into, behind the name of the field and the
    separator. *)
Theorem X15_GetNested_field (decls : Reflect.TypeId -> list Reflect.StructField)
    (t : tago.TaGo) (sep : bytes) (d d' : nat) (model : Reflect.rtype)
    (T T' : Reflect.TypeId) (f : Reflect.StructField)
    (idx inner : tago.Instructions) :
  tago.typeToElem model = Reflect.TStruct T ->
  f ∈ decls T -> descends T f T' ->
  tago.GetNested decls d t model sep = Ok idx ->
  tago.GetNested decls d' t (Reflect.TStruct T') sep = Ok inner ->
  forall i fn : bytes,
    listed inner i fn -> listed idx i (Reflect.Name f ++ sep ++ fn).
Proof.
  intros HT Hf Hdesc Hidx Hinner i fn Hfn.
  apply (getNested_listed decls t sep d' _ T' [] inner (typeToElem_struct T') Hinner)
    in Hfn as (path & name & Hdecl & ->).
  apply (getNested_listed decls t sep d model T [] idx HT Hidx).
  exists (Reflect.Name f :: path), name. split; [by econstructor|done].
Qed.

Lemma X15_GetNested_field_witness :
  listed {[ str "preload=true" := [str "Field1"; str "Field3"; str "Field3.Subfield1"];
            str "otherOption=value" := [str "Field1"];
            str "otherOption=value2" := [str "Field3.Subfield1"] ]}
         (str "otherOption=value2") (str "Field3" ++ str "." ++ str "Subfield1").
Proof.
  apply (X15_GetNested_field Sample.decls Sample.tg (str ".") 2 1
           (Reflect.TPtr (Reflect.TStruct Sample.MyModel))
           Sample.MyModel Sample.NestedModel
           (Sample.field "Field3" (Reflect.TStruct Sample.NestedModel)
              (Sample.gorm2 "preload=true"))
           _ {[ str "preload=true" := [str "Subfield1"];
                str "otherOption=value2" := [str "Subfield1"] ]}).
  - reflexivity.
  - vm_compute. set_solver.
  - split; [reflexivity|]. by vm_compute.
  - reflexivity.
  - reflexivity.
  - exists [str "Subfield1"]. split; [reflexivity|left].
Defined.

Lemma getNested_no_panic (decls : Reflect.TypeId -> list Reflect.StructField)
    (t : tago.TaGo) (sep : bytes) (depth : nat) (model : Reflect.rtype)
    (T : Reflect.TypeId) (prefix : bytes) :
  tago.typeToElem model = Reflect.TStruct T ->
  tago.getNested decls depth t model prefix sep <> Panic.
Proof.
  revert model T prefix. induction depth as [|depth IH]; intros model T prefix HT;
    [done|].
  rewrite (getNested_unfold _ _ _ _ T) by done.
  generalize (∅ : tago.Instructions).
  induction (decls T) as [|f fs IHfs]; intros acc; simpl; [done|].
  destruct (tago.getNested_step _ _ _ _ _ acc f) as [acc'| |] eqn:Hstep; simpl;
    [apply IHfs| |done].
  unfold tago.getNested_step in Hstep. repeat case_decide; try done.
  destruct (tago.getNested decls depth t _ _ sep) as [nested| |] eqn:Hrec;
    simpl in Hstep; try done.
  match goal with H : Reflect.kind _ = Reflect.Struct |- _ =>
    apply kind_struct in H as [T' HT'] end.
  rewrite HT' in Hrec. by apply (IH _ T' _ (typeToElem_struct T')) in Hrec.
Qed.

(** X16: [GetNested] panics exactly when the value passed is not a struct
    behind the wrappings [typeToElem] removes; fields of any type below a
    struct root never make it panic. *)
Theorem X16_GetNested_panic (decls : Reflect.TypeId -> list Reflect.StructField)
    (t : tago.TaGo) (sep : bytes) (depth : nat) (model : Reflect.rtype) :
  tago.GetNested decls (S depth) t model sep = Panic <->
  forall T, model ∉ wrappings T.
Proof.
  unfold tago.GetNested. split.
  - intros Hp T HT%typeToElem_wrappings.
    by apply (getNested_no_panic decls t sep (S depth) model T []) in HT.
  - intros Hno. cbn [tago.getNested].
    destruct (tago.typeToElem model) as [T| | |] eqn:HT; try done.
    by apply typeToElem_wrappings, Hno in HT.
Qed.

Lemma foldM_Overflow {A B} (f : B -> A -> result B) (b : B) (l : list A) (a : A) :
  a ∈ l ->
  (forall b, f b a = Overflow) ->
  (forall b a', a' ∈ l -> f b a' <> Panic) ->
  foldM f b l = Overflow.
Proof.
  intros Ha Hover Hnp. revert b.
  induction l as [|a0 l IH]; intros b; [by apply elem_of_nil in Ha|].
  simpl. destruct (f b a0) as [b'| |] eqn:Hf; simpl; [|by destruct (Hnp b a0); [left|]|done].
  apply elem_of_cons in Ha as [->|Ha]; [by rewrite Hover in Hf|].
  apply IH; [done|]. intros b0 a' Ha'. apply Hnp. by right.
Qed.

(** X17: two struct types that refer to each other through fields the
    traversal descends into exhaust every recursion budget: [getNested]
    returns at no depth. *)
Theorem X17_indirect_cycle (decls : Reflect.TypeId -> list Reflect.StructField)
    (t : tago.TaGo) (sep : bytes) (T T' : Reflect.TypeId)
    (f g : Reflect.StructField) :
  f ∈ decls T -> descends T f T' ->
  g ∈ decls T' -> descends T' g T ->
  forall (depth : nat) (model : Reflect.rtype) (prefix : bytes),
    tago.typeToElem model = Reflect.TStruct T ->
    tago.getNested decls depth t model prefix sep = Overflow.
Proof.
  intros Hf Hfd Hg Hgd.
  assert (forall (T1 T2 : Reflect.TypeId) (h : Reflect.StructField) (depth : nat),
             h ∈ decls T1 -> descends T1 h T2 ->
             (forall model prefix, tago.typeToElem model = Reflect.TStruct T2 ->
                tago.getNested decls depth t model prefix sep = Overflow) ->
             forall model prefix, tago.typeToElem model = Reflect.TStruct T1 ->
                tago.getNested decls (S depth) t model prefix sep = Overflow) as Hstep.
  { intros T1 T2 h depth Hh [Hty Hs] Hinner model prefix HT1.
    rewrite (getNested_unfold _ _ _ _ T1) by done.
    apply (foldM_Overflow _ _ _ h); [done| |].
    - intros tags. unfold tago.getNested_step. rewrite Hty.
      rewrite decide_True by done. rewrite decide_True by done.
      by rewrite Hinner.
    - intros tags h' _ Hp. unfold tago.getNested_step in Hp.
      repeat case_decide; try done.
      destruct (tago.getNested decls depth t _ _ sep) as [nested| |] eqn:Hrec;
        simpl in Hp; try done.
      match goal with H : Reflect.kind _ = Reflect.Struct |- _ =>
        apply kind_struct in H as [T3 HT3] end.
      rewrite HT3 in Hrec.
      by apply (getNested_no_panic decls t sep depth _ T3 _ (typeToElem_struct T3))
        in Hrec. }
  assert (forall depth,
             (forall model prefix, tago.typeToElem model = Reflect.TStruct T ->
                tago.getNested decls depth t model prefix sep = Overflow) /\
             (forall model prefix, tago.typeToElem model = Reflect.TStruct T' ->
                tago.getNested decls depth t model prefix sep = Overflow)) as Hall.
  { induction depth as [|depth [IH1 IH2]]; [done|]. split.
    - by apply (Hstep T T' f).
    - by apply (Hstep T' T g). }
  intros depth. apply Hall.
Qed.

Lemma X17_indirect_cycle_witness :
  tago.getNested Cyclic.decls 5 Sample.tg (Reflect.TPtr (Reflect.TStruct Cyclic.Order))
    [] (str ".") = Overflow.
Proof.
  apply (X17_indirect_cycle Cyclic.decls Sample.tg (str ".")
           Cyclic.Order Cyclic.Customer Cyclic.to_customer Cyclic.to_orders).
  - vm_compute. set_solver.
  - split; [reflexivity|]. by vm_compute.
  - vm_compute. set_solver.
  - split; [reflexivity|]. by vm_compute.
  - reflexivity.
Defined.

(** X18: when the traversal descends into no field of the struct passed
    (its struct-typed fields have its own type, or a type that prints the
    same), [GetNested] returns at any positive depth what [Get] returns. *)
Theorem X18_GetNested_flat (decls : Reflect.TypeId -> list Reflect.StructField)
    (t : tago.TaGo) (sep : bytes) (depth : nat) (model : Reflect.rtype)
    (T : Reflect.TypeId) :
  tago.typeToElem model = Reflect.TStruct T ->
  (forall f T', f ∈ decls T -> ~ descends T f T') ->
  tago.GetNested decls (S depth) t model sep = tago.Get decls t model.
Proof.
  intros HT Hno. unfold tago.GetNested, tago.Get.
  rewrite (getNested_unfold _ _ _ _ T) by done. rewrite HT. simpl.
  assert (forall f, f ∈ decls T -> f ∈ decls T) as Hsub by done.
  revert Hsub. generalize (decls T) at 1 3 4. generalize (∅ : tago.Instructions).
  intros acc fs. revert acc. induction fs as [|f fs IH]; intros acc Hsub; simpl; [done|].
  assert (tago.getNested_step
            (fun m p => tago.getNested decls depth t m p sep)
            t (Reflect.TStruct T) [] sep acc f
          = Ok (tago.concat acc (tago.GetFromField t f) [])) as ->.
  { apply getNested_step_Ok. exists ∅. split; [by rewrite concat_empty_r|].
    right. split; [|done]. intros T'. apply Hno, Hsub. left. }
  simpl. apply IH. intros f' Hf'. apply Hsub. by right.
Qed.

Lemma X18_GetNested_flat_witness :
  tago.GetNested Sample.decls_node 1 Sample.tg
    (Reflect.TSlice (Reflect.TStruct Sample.Node)) (str ".")
  = tago.Get Sample.decls_node Sample.tg (Reflect.TSlice (Reflect.TStruct Sample.Node)).
Proof.
  apply (X18_GetNested_flat Sample.decls_node Sample.tg (str ".") 0
           (Reflect.TSlice (Reflect.TStruct Sample.Node)) Sample.Node).
  - reflexivity.
  - intros f T' Hf [Hty Hs]. vm_compute in Hf. set_unfold in Hf.
    destruct Hf as [->|[->|[->|[]]]]; vm_compute in Hty; try discriminate Hty;
      injection Hty as <-; by apply Hs.
Defined.

(** ** The dispatcher, further *)

(** X19: when the index holds none of the instructions of the mapping,
    [Apply] leaves the run as it was: no invocation, the state unchanged. *)
Theorem X19_Apply_no_match {St : Type} (instructions : tago.Instructions)
    (mapping : list (bytes * @tago.Action St)) (r : tago.Run) :
  (forall entry, entry ∈ mapping -> instructions !! entry.1 = None) ->
  tago.Apply instructions mapping r = r.
Proof.
  unfold tago.Apply. revert r.
  induction mapping as [|entry mapping IH]; intros r Hno; simpl; [done|].
  rewrite (Hno entry) by left. apply IH. intros e He. apply Hno. by right.
Qed.

Lemma X19_Apply_no_match_witness :
  tago.Apply Sample.preloads
    [(str "absent", Sample.count); (str "preload", Sample.count)] (fresh 0)
  = fresh 0.
Proof.
  apply (X19_Apply_no_match Sample.preloads
           [(str "absent", Sample.count); (str "preload", Sample.count)] (fresh 0)).
  intros entry Hin. set_unfold in Hin. destruct Hin as [->|[->|[]]]; reflexivity.
Defined.




